(** * cfilter: a shallow embedding of the colorizing filter

    The development follows the two Go files of the repository:
    - [color.go]: the colour tables, [ParseColorize] and [Property];
    - [cfilter.go]: [LinePosition], the per-line match collection, the
      sweep that writes text and ANSI escapes, and the read loop of
      [processFile].

    Go values are embedded as follows.
    - [int] is [Z].  Every integer of the program is a table constant, a
      regexp offset, or a counter bounded by the number of tokens or
      events, so no 64-bit wrap-around is reachable.
    - [string] is [string]; [[]byte] is [list ascii] (8-bit characters).
    - [map[string]int] is [gmap string Z]; reading an absent key gives 0.
    - [[]int] indexed by pattern number is [list Z]; a group number and
      a pattern number, which are indices, are [nat].
    - a run-time panic is the [Panic] result.
    - library code the program calls is a parameter: the compiled regular
      expression is the function computed by [FindAllSubmatchIndex],
      [sort.Sort] is any function [sortPositions], [strings.ToLower] is
      any function [ToLower], and the order in which [range] walks a map
      is given by [rangeOrder]. *)

From Stdlib Require Import ZArith Lia Ascii String List Permutation Sorted.
From stdpp Require Import base tactics option list gmap strings pretty sorting.

Local Open Scope string_scope.
Local Open Scope list_scope.
Local Open Scope Z_scope.

(** ** Results of code that can panic *)

Inductive result (A : Type) : Type :=
  | Ok (a : A)
  | Panic (msg : string)
  | OutOfFuel.
Arguments Ok {A} a.
Arguments Panic {A} msg.
Arguments OutOfFuel {A}.

Definition rbind {A B} (r : result A) (k : A -> result B) : result B :=
  match r with
  | Ok a => k a
  | Panic msg => Panic msg
  | OutOfFuel => OutOfFuel
  end.

Global Instance result_bind : MBind result := fun A B k r => rbind r k.
Global Instance result_ret : MRet result := fun A a => Ok a.

Ltac unfold_bind := unfold mbind, result_bind, rbind in *.

(** ** color.go *)

Module Color.

Definition AnsiStart : string := String (ascii_of_nat 27) "[".
Definition bold : Z := 1.
Definition blink : Z := 5.
Definition underline : Z := 4.
Definition inverse : Z := 7.
Definition backgroundColor : Z := 10.
Definition revertProp : Z := 20.
Definition brightColor : Z := 60.

Definition ResetForeground : Z := 39.
Definition ResetBackground : Z := 49.

Definition ForegroundColor : string := "foreground".
Definition BackgroundColor : string := "background".
Definition BoldProperty : string := "bold".
Definition BlinkProperty : string := "blink".
Definition UnderlineProperty : string := "underline".
Definition InverseProperty : string := "inverse".

Definition Black : Z := 30.
Definition Red : Z := 31.
Definition Green : Z := 32.
Definition Yellow : Z := 33.
Definition Blue : Z := 34.
Definition Magenta : Z := 35.
Definition Cyan : Z := 36.
Definition White : Z := 37.

(** The two tables are Go maps that are only ever read by key; the
    association lists below list their entries in source order. *)
Definition AnsiColorsTable : list (string * Z) :=
  [("black", Black); ("red", Red); ("green", Green); ("yellow", Yellow);
   ("blue", Blue); ("magenta", Magenta); ("cyan", Cyan); ("white", White)].

Definition AnsiPropertiesTable : list (string * Z) :=
  [(BoldProperty, bold); (BlinkProperty, blink);
   (UnderlineProperty, underline); (InverseProperty, inverse)].

Fixpoint assoc (tbl : list (string * Z)) (k : string) : option Z :=
  match tbl with
  | [] => None
  | (k', v) :: tbl' => if String.eqb k' k then Some v else assoc tbl' k
  end.

Definition AnsiColors (k : string) : option Z := assoc AnsiColorsTable k.
Definition AnsiProperties (k : string) : option Z := assoc AnsiPropertiesTable k.

(** The keys of [AnsiProperties]. *)
Definition propertyKeys : list string := map fst AnsiPropertiesTable.

(** [type Colorize map[string]int]; [c[k]] on an absent key is 0. *)
Abbreviation Colorize := (gmap string Z).

Definition get (c : Colorize) (k : string) : Z := default 0 (c !! k).

(** [regexp.MustCompile("[ \t]+").Split(spec, -1)]: the pieces of [spec]
    between the maximal runs of spaces and tabs.  A run at the very
    start or end leaves an empty piece there, and the empty string
    splits into one empty piece.  [cur] is the piece being read, in
    reverse; [inRun] tells that the previous character was a blank. *)
Definition isBlank (a : ascii) : bool :=
  orb (Ascii.eqb a " ") (Ascii.eqb a (ascii_of_nat 9)).

Fixpoint rev_string (cur : list ascii) (acc : string) : string :=
  match cur with
  | [] => acc
  | a :: cur' => rev_string cur' (String a acc)
  end.

Fixpoint splitBlanks (s : string) (cur : list ascii) (inRun : bool) : list string :=
  match s with
  | EmptyString => [rev_string cur ""]
  | String a s' =>
      if isBlank a then
        if inRun then splitBlanks s' [] true
        else rev_string cur "" :: splitBlanks s' [] true
      else splitBlanks s' (a :: cur) false
  end.

Definition Split (spec : string) : list string := splitBlanks spec [] false.

Section Parse.

(** [strings.ToLower]. *)
Variable ToLower : string -> string.

Definition isChannelBG (word : string) : bool :=
  orb (String.eqb word "bg") (String.eqb word "background").
Definition isChannelFG (word : string) : bool :=
  orb (String.eqb word "fg") (String.eqb word "foreground").

(** The body of the [for ... range] loop of [ParseColorize], threaded
    through the words; the state is [c], [colorAddon] and [colorType]. *)
Fixpoint parseWords (words : list string) (c : Colorize)
    (colorAddon : Z) (colorType : string) : result Colorize :=
  match words with
  | [] => Ok c
  | word :: rest =>
      let word := ToLower word in
      if isChannelBG word then
        parseWords rest (<[BackgroundColor := 0]> c) backgroundColor BackgroundColor
      else if isChannelFG word then
        parseWords rest (<[ForegroundColor := 0]> c) 0 ForegroundColor
      else if String.eqb word "bright" then
        parseWords rest c (colorAddon + brightColor) colorType
      else
        match AnsiColors word with
        | Some v => parseWords rest (<[colorType := colorAddon + v]> c) colorAddon colorType
        | None =>
            match AnsiProperties word with
            | Some v => parseWords rest (<[word := v]> c) colorAddon colorType
            | None =>
                if (0 <? String.length word)%nat
                then Panic ("unknown keyword: " +:+ word)
                else parseWords rest c colorAddon colorType
            end
        end
  end.

Definition ParseColorize (spec : string) : result Colorize :=
  parseWords (Split spec) ∅ 0 "foreground".

End Parse.

Definition Property (name : string) (isset : bool) : Z :=
  match AnsiProperties name with
  | None => 0
  | Some v =>
      if isset then v
      else (if String.eqb name "bold" then 2 else v) + revertProp
  end.

(** [strings.ToLower] on 7-bit input: the letters A to Z are folded. *)
Definition lowerAscii (a : ascii) : ascii :=
  let n := nat_of_ascii a in
  if andb (65 <=? n)%nat (n <=? 90)%nat then ascii_of_nat (n + 32) else a.

Fixpoint asciiToLower (s : string) : string :=
  match s with
  | EmptyString => EmptyString
  | String a s' => String (lowerAscii a) (asciiToLower s')
  end.

End Color.

(** ** cfilter.go *)

Module Cfilter.
Import Color.

Abbreviation bytes := (list ascii).

(** [Group] and [LinePosition] both have a Go field [Colorize]; the two
    fields are [GroupColorize] and [PosColorize] here. *)
Record Group : Type := mkGroup {
  Name : string;
  Number : nat;
  GroupColorize : Colorize
}.

(** [RE] is the compiled regular expression, given by what
    [RE.FindAllSubmatchIndex(line, -1)] returns: one index slice per
    match, [nil] (the empty list) when the line has no match.  A group
    that takes no part in a match has both indices -1. *)
Record Pattern : Type := mkPattern {
  RE : bytes -> list (list Z);
  Groups : list Group
}.

Inductive LinePositionKind : Type :=
  | LinePositionStartKind
  | LinePositionEndKind.

Record LinePosition : Type := mkLinePosition {
  Kind : LinePositionKind;
  Order : nat;
  Offset : Z;
  PosColorize : Colorize
}.

Abbreviation LinePositions := (list LinePosition).

(** [LinePositions.Less]. *)
Definition Less (a b : LinePosition) : bool := Offset a <? Offset b.

(** What is written to [wr]: the sink receives the payloads in order.
    The constructor records which [wr.Write] call of [processFile]
    produced the bytes: a piece of the input line or an escape. *)
Inductive Write : Type :=
  | Text (b : bytes)
  | Escape (s : string).

Definition payload (w : Write) : bytes :=
  match w with
  | Text b => b
  | Escape s => list_ascii_of_string s
  end.

(** The bytes that reach the sink. *)
Definition sinkBytes (out : list Write) : bytes := concat (map payload out).

(** The per-stream variables of [processFile] that outlive a line. *)
Record State : Type := mkState {
  lineColorFG : list Z;
  lineColorBG : list Z;
  lineProperties : gmap string Z
}.

(** ** Match collection *)

(** [match[i]]; out of range is a run-time panic. *)
Definition index (match_ : list Z) (i : nat) : result Z :=
  match match_ !! i with
  | Some v => Ok v
  | None => Panic "index out of range"
  end.

(** [for _, match := range res], for one group of pattern number [n]. *)
Fixpoint collectMatches (n : nat) (group : Group) (res : list (list Z))
    (positions : LinePositions) : result LinePositions :=
  match res with
  | [] => Ok positions
  | match_ :: res' =>
      let pos := (Number group * 2)%nat in
      s ← index match_ pos;
      e ← index match_ (pos + 1)%nat;
      if s =? e then collectMatches n group res' positions
      else
        collectMatches n group res'
          (positions ++
             [mkLinePosition LinePositionStartKind n s (GroupColorize group);
              mkLinePosition LinePositionEndKind n e (GroupColorize group)])
  end.

(** [for i, group := range pattern.Groups]. *)
Fixpoint collectGroups (n : nat) (groups : list Group) (res : list (list Z))
    (positions : LinePositions) : result LinePositions :=
  match groups with
  | [] => Ok positions
  | group :: groups' =>
      positions ← collectMatches n group res positions;
      collectGroups n groups' res positions
  end.

(** [for n, pattern := range patterns]; [n] is the number of the first
    pattern of the list. *)
Fixpoint collectPatterns (n : nat) (patterns : list Pattern) (line : bytes)
    (lineMatches : bool) (positions : LinePositions)
    : result (bool * LinePositions) :=
  match patterns with
  | [] => Ok (lineMatches, positions)
  | pattern :: rest =>
      match RE pattern line with
      | [] => collectPatterns (S n) rest line lineMatches positions
      | res =>
          positions ← collectGroups n (Groups pattern) res positions;
          collectPatterns (S n) rest line true positions
      end
  end.

Definition collect (patterns : list Pattern) (line : bytes)
    : result (bool * LinePositions) :=
  collectPatterns 0 patterns line false [].

(** ** The sweep over the sorted positions *)

(** [line[lo:hi]].  Go panics when the bounds are not ordered or not
    inside the slice.  (Go checks [hi] against the capacity of the
    slice, which for the result of [ReadSlice] runs to the end of the
    read buffer; the regexp package gives no offset beyond the line,
    and a panic stands here for every [hi] beyond it.) *)
Definition slice (line : bytes) (lo hi : Z) : result bytes :=
  if (0 <=? lo) && (lo <=? hi) && (hi <=? Z.of_nat (length line))
  then Ok (take (Z.to_nat (hi - lo)) (drop (Z.to_nat lo) line))
  else Panic "slice bounds out of range".

(** [for k := range AnsiProperties { if _, ok := c[k]; ok { props[k] += delta } }].
    The body touches key [k] only, so the order of the walk does not
    matter; the keys are taken in table order. *)
Definition bumpProperties (delta : Z) (c : Colorize)
    (props : gmap string Z) : gmap string Z :=
  foldl (fun props k =>
           match c !! k with
           | Some _ => <[k := get props k + delta]> props
           | None => props
           end) props propertyKeys.

(** The [switch pos.Kind] statement. *)
Definition applyEvent (st : State) (pos : LinePosition) : State :=
  match Kind pos with
  | LinePositionStartKind =>
      mkState
        (<[Order pos := get (PosColorize pos) ForegroundColor]> (lineColorFG st))
        (<[Order pos := get (PosColorize pos) BackgroundColor]> (lineColorBG st))
        (bumpProperties 1 (PosColorize pos) (lineProperties st))
  | LinePositionEndKind =>
      mkState
        (<[Order pos := 0]> (lineColorFG st))
        (<[Order pos := 0]> (lineColorBG st))
        (bumpProperties (-1) (PosColorize pos) (lineProperties st))
  end.

(** [a[n]] for [n] below the length of [a]. *)
Definition at_ (a : list Z) (n : nat) : Z := default 0 (a !! n).

(** The loop [for n := len(patterns) - 1; n >= 0 && (foundFG == 0 ||
    foundBG == 0); n--]; the first argument is [n + 1]. *)
Fixpoint findLoop (n1 : nat) (fg bg : list Z) (foundFG foundBG : Z) : Z * Z :=
  match n1 with
  | O => (foundFG, foundBG)
  | S n =>
      if (foundFG =? 0) || (foundBG =? 0) then
        let foundFG' :=
          if (foundFG =? 0) && (0 <? at_ fg n) then at_ fg n else foundFG in
        let foundBG' :=
          if (foundBG =? 0) && (0 <? at_ bg n) then at_ bg n else foundBG in
        findLoop n fg bg foundFG' foundBG'
      else (foundFG, foundBG)
  end.

(** The loop followed by the two resets to the default codes. *)
Definition findColors (np : nat) (fg bg : list Z) : Z * Z :=
  let '(foundFG, foundBG) := findLoop np fg bg 0 0 in
  (if foundFG =? 0 then ResetForeground else foundFG,
   if foundBG =? 0 then ResetBackground else foundBG).

(** A walk over a list in the order picked by [code]: each number of the
    code picks, modulo the number of entries left, the next entry.
    Every code gives a rearrangement and every rearrangement has a code. *)
Fixpoint permute {A} (code : list nat) (l : list A) : list A :=
  match code with
  | [] => l
  | i :: code' =>
      let j := (i mod length l)%nat in
      match l !! j with
      | Some x => x :: permute code' (delete j l)
      | None => []
      end
  end.

(** [fmt.Sprintf("%d", v)]. *)
Definition Sprintf_d (v : Z) : string := pretty v.

(** [for k, v := range lineProperties { props += Sprintf("%d;", Property(k, v > 0)) }]
    over the entries in the order [kvs]. *)
Definition propsString (kvs : list (string * Z)) : string :=
  foldl (fun props kv => props +:+ Sprintf_d (Property kv.1 (0 <? kv.2)) +:+ ";")
        "" kvs.

(** [fmt.Sprintf("%s%s%d;%dm", AnsiStart, props, foundFG, foundBG)]. *)
Definition escapeString (props : string) (foundFG foundBG : Z) : string :=
  AnsiStart +:+ props +:+ Sprintf_d foundFG +:+ ";" +:+ Sprintf_d foundBG +:+ "m".

Section Render.

(** [sort.Sort] on [LinePositions]. *)
Variable sortPositions : LinePositions -> LinePositions.

(** The order of [range lineProperties] at event number [i] of line
    number [lineno], as a code for [permute]: Go leaves the iteration
    order of a map unspecified and varies it from one loop to the next. *)
Variable rangeOrder : nat -> nat -> list nat.

(** The escape computed after an event: [np] is [len(patterns)]. *)
Definition computeEscape (np lineno i : nat) (st : State) : string :=
  let '(foundFG, foundBG) := findColors np (lineColorFG st) (lineColorBG st) in
  let props := propsString (permute (rangeOrder lineno i) (map_to_list (lineProperties st))) in
  escapeString props foundFG foundBG.

(** [for _, pos := range positions]; [i] counts the events of the line,
    [out] is what the line has written so far. *)
Fixpoint sweep (np lineno i : nat) (positions : LinePositions) (line : bytes)
    (st : State) (out : list Write) (lineOffset : Z) (prevEscape : string)
    : result (State * list Write * Z * string) :=
  match positions with
  | [] => Ok (st, out, lineOffset, prevEscape)
  | pos :: rest =>
      '(out, lineOffset) ←
        (if lineOffset <? Offset pos then
           chunk ← slice line lineOffset (Offset pos);
           Ok (out ++ [Text chunk], Offset pos)
         else Ok (out, lineOffset)) : result (list Write * Z);
      if lineOffset =? Offset pos then
        let st := applyEvent st pos in
        let escape := computeEscape np lineno i st in
        if String.eqb prevEscape escape
        then sweep np lineno (S i) rest line st out lineOffset prevEscape
        else sweep np lineno (S i) rest line st (out ++ [Escape escape]) lineOffset escape
      else sweep np lineno (S i) rest line st out lineOffset prevEscape
  end.

(** The body of the read loop after [ReadSlice]: what is done with one
    [line].  The result is the new state and the writes of this line. *)
Definition processLine (patterns : list Pattern) (lineno : nat) (st : State)
    (line : bytes) : result (State * list Write) :=
  '(lineMatches, positions) ← collect patterns line;
  if (0 <? length positions)%nat then
    let positions := sortPositions positions in
    let lineOffset := 0 in
    let prevEscape := "" in
    '(st, out, lineOffset, _) ←
      sweep (length patterns) lineno 0 positions line st [] lineOffset prevEscape;
    tail ← slice line lineOffset (Z.of_nat (length line));
    Ok (st, out ++ [Text tail])
  else if (lineMatches : bool) then Ok (st, [Text line])
  else Ok (st, []).

(** ** The read loop *)

(** The errors [ReadSlice] can return. *)
Inductive error : Type :=
  | EOF
  | ErrBufferFull
  | ErrIO (msg : string).

(** The input stream [rd]: its bytes, and how it ends: with [io.EOF]
    ([None]) or with a read failure. *)
Record Source : Type := mkSource {
  data : bytes;
  failure : option string
}.

(** The error of a stream that has no more bytes. *)
Definition endError (failure : option string) : error :=
  match failure with
  | None => EOF
  | Some msg => ErrIO msg
  end.

(** A [bufio.Reader]: the buffer size and what is still to be read. *)
Record Reader : Type := mkReader {
  bufSize : nat;
  unread : bytes;
  srcFailure : option string
}.

(** [bufio.NewReaderSize]: a size below 16 is raised to 16. *)
Definition NewReaderSize (rd : Source) (size : Z) : Reader :=
  mkReader (Z.to_nat (Z.max size 16)) (data rd) (failure rd).

Definition newline : ascii := ascii_of_nat 10.

(** [bytes.IndexByte]. *)
Fixpoint IndexByte (b : bytes) (c : ascii) : option nat :=
  match b with
  | [] => None
  | x :: b' => if Ascii.eqb x c then Some O else S <$> IndexByte b' c
  end.

(** [bufio.Reader.ReadSlice]: the bytes up to and including the first
    [delim]; when the buffer fills without a [delim], the full buffer
    and [ErrBufferFull]; when the input ends before the buffer is full,
    what is left and the error of the source. *)
Definition ReadSlice (b : Reader) (delim : ascii)
    : bytes * option error * Reader :=
  match IndexByte (take (bufSize b) (unread b)) delim with
  | Some i =>
      (take (S i) (unread b), None,
       mkReader (bufSize b) (drop (S i) (unread b)) (srcFailure b))
  | None =>
      if (bufSize b <=? length (unread b))%nat then
        (take (bufSize b) (unread b), Some ErrBufferFull,
         mkReader (bufSize b) (drop (bufSize b) (unread b)) (srcFailure b))
      else
        (unread b, Some (endError (srcFailure b)),
         mkReader (bufSize b) [] (srcFailure b))
  end.

(** [if readerErr == bufio.ErrBufferFull { readerErr = nil }]. *)
Definition clearBufferFull (readerErr : option error) : option error :=
  match readerErr with
  | Some ErrBufferFull => None
  | _ => readerErr
  end.

(** [for readerErr == nil { ... }]; every turn that goes on has read at
    least one byte, so [fuel] above the length of the input is never
    used up.  The result is the returned error and what was written. *)
Fixpoint processLoop (fuel : nat) (patterns : list Pattern) (reader : Reader)
    (lineno : nat) (st : State) (sink : list Write)
    : result (option error * list Write) :=
  match fuel with
  | O => OutOfFuel
  | S fuel' =>
      let '(line, readerErr, reader) := ReadSlice reader newline in
      let readerErr := clearBufferFull readerErr in
      match readerErr with
      | Some (ErrIO msg) => Ok (Some (ErrIO msg), sink)
      | _ =>
          '(st, out) ← processLine patterns lineno st line;
          match readerErr with
          | None => processLoop fuel' patterns reader (S lineno) st (sink ++ out)
          | Some _ => Ok (None, sink ++ out)
          end
      end
  end.

Definition initialState (patterns : list Pattern) : State :=
  mkState (replicate (length patterns) 0) (replicate (length patterns) 0) ∅.

Definition processFile (bufferSize : Z) (patterns : list Pattern) (rd : Source)
    : result (option error * list Write) :=
  processLoop (S (length (data rd))) patterns (NewReaderSize rd bufferSize)
    0 (initialState patterns) [].

End Render.

(** The values [line] takes in the turns of the read loop that reach the
    match collection, in order. *)
Fixpoint deliveredLoop (fuel : nat) (reader : Reader) : list bytes :=
  match fuel with
  | O => []
  | S fuel' =>
      let '(line, readerErr, reader) := ReadSlice reader newline in
      match clearBufferFull readerErr with
      | Some (ErrIO _) => []
      | None => line :: deliveredLoop fuel' reader
      | Some _ => [line]
      end
  end.

Definition delivered (bufferSize : Z) (rd : Source) : list bytes :=
  deliveredLoop (S (length (data rd))) (NewReaderSize rd bufferSize).

(** ** Two instances of [sort.Sort] *)

(** [insertionSort] of package [sort]: each element moves left while it
    is [Less] than its left neighbour.  The part to its left is sorted,
    so it stops in front of the first element it is [Less] than. *)
Fixpoint insertPosition (x : LinePosition) (l : LinePositions) : LinePositions :=
  match l with
  | [] => [x]
  | y :: l' => if Less x y then x :: y :: l' else y :: insertPosition x l'
  end.

Definition insertionSort (l : LinePositions) : LinePositions :=
  foldl (fun acc x => insertPosition x acc) [] l.

(** [data.Swap(i, j)]. *)
Definition Swap (l : LinePositions) (i j : nat) : LinePositions :=
  match l !! i, l !! j with
  | Some x, Some y => <[i := y]> (<[j := x]> l)
  | _, _ => l
  end.

(** [for i := a + 6; i < b; i++ { if data.Less(i, i-6) { data.Swap(i, i-6) } }]. *)
Definition shellPass6 (l : LinePositions) : LinePositions :=
  foldl (fun l i =>
           match l !! i, l !! (i - 6)%nat with
           | Some x, Some y => if Less x y then Swap l i (i - 6) else l
           | _, _ => l
           end) l (seq 6 (length l - 6)).

(** [sort.Sort] as [quickSort] runs it on at most 12 elements in the Go
    releases up to 1.18: one Shell pass with gap 6, then
    [insertionSort].  Below 7 elements the pass does nothing. *)
Definition shellSort (l : LinePositions) : LinePositions :=
  insertionSort (shellPass6 l).

(** The walk of a map in the order of its entry list. *)
Definition rangeInOrder : nat -> nat -> list nat := fun _ _ => [].

(** The walk that takes the second entry first, then the others. *)
Definition rangeRotated : nat -> nat -> list nat := fun _ _ => [1%nat].

End Cfilter.

(** ** cfilter.go: the rules *)

Module Rules.
Import Color Cfilter.

(** A compiled [*regexp.Regexp], as far as the program uses it: the
    function [FindAllSubmatchIndex(line, -1)] and the list
    [SubexpNames()], whose entry 0 stands for the whole match. *)
Record Regexp : Type := mkRegexp {
  FindAllSubmatchIndex : bytes -> list (list Z);
  SubexpNames : list string
}.

(** What [readPatternsFromFile] returns as its error: the error of the
    reader or the error of [parsePattern]. *)
Inductive ruleError : Type :=
  | ReadFailure (e : error)
  | BadRule (msg : string).

(** [strings.LastIndexByte]: [i] is the index of the head of [s],
    [found] the last index seen so far. *)
Fixpoint lastIndexFrom (s : string) (c : ascii) (i found : Z) : Z :=
  match s with
  | EmptyString => found
  | String a s' => lastIndexFrom s' c (i + 1) (if Ascii.eqb a c then i else found)
  end.

Definition LastIndexByte (s : string) (c : ascii) : Z := lastIndexFrom s c 0 (-1).

(** [strings.Split(s, sep)] for a separator of one byte: the pieces
    between the separators, empty pieces included. *)
Fixpoint splitOn (sep : ascii) (s : string) (cur : list ascii) : list string :=
  match s with
  | EmptyString => [rev_string cur ""]
  | String a s' =>
      if Ascii.eqb a sep then rev_string cur "" :: splitOn sep s' []
      else splitOn sep s' (a :: cur)
  end.

Definition StringsSplit (s : string) (sep : ascii) : list string := splitOn sep s [].

(** [strings.HasPrefix]. *)
Definition HasPrefix (s pre : string) : bool := String.prefix pre s.

(** [s[lo:hi]] and [s[lo:]] on a string, for bounds inside [s]. *)
Definition substr (s : string) (lo hi : Z) : string :=
  String.substring (Z.to_nat lo) (Z.to_nat (hi - lo)) s.
Definition substrFrom (s : string) (lo : Z) : string :=
  String.substring (Z.to_nat lo) (String.length s - Z.to_nat lo) s.

(** [fmt.Errorf("%s:%d: " + text, filename, num)]. *)
Definition errorAt (filename : string) (num : Z) (text : string) : string :=
  filename +:+ ":" +:+ Sprintf_d num +:+ ": " +:+ text.

Section Parse.

(** [strings.TrimSpace], [strings.ToLower] and [regexp.Compile]; the
    latter returns the text of its error or the compiled expression. *)
Variable TrimSpace : string -> string.
Variable ToLower : string -> string.
Variable Compile : string -> string + Regexp.

(** The loop [for i, s := range strings.Split(line[last+1:], ",")] of
    [parsePattern]: [i] is the index of the head of [entries]. *)
Fixpoint parseNames (filename : string) (num : Z) (i : nat) (entries : list string)
    (names : gmap string Colorize) : result (string + gmap string Colorize) :=
  match entries with
  | [] => Ok (inr names)
  | s :: rest =>
      if (String.length s =? 0)%nat then parseNames filename num (S i) rest names
      else
        match StringsSplit s ":" with
        | [name; spec] =>
            c ← ParseColorize ToLower spec;
            parseNames filename num (S i) rest (<[TrimSpace name := c]> names)
        | _ =>
            Ok (inl (errorAt filename num
                       ("bad format: can not parse group " +:+ Sprintf_d (Z.of_nat i))))
        end
  end.

(** The loop [for i, name := range pattern.RE.SubexpNames()]. *)
Fixpoint attachGroups (i : nat) (subexpNames : list string)
    (names : gmap string Colorize) (groups : list Group) : list Group :=
  match subexpNames with
  | [] => groups
  | name :: rest =>
      if (String.length name =? 0)%nat then attachGroups (S i) rest names groups
      else
        match names !! name with
        | None => attachGroups (S i) rest names groups
        | Some data => attachGroups (S i) rest names (groups ++ [mkGroup name i data])
        end
  end.

(** [parsePattern], in the later of the two revisions of the file (the
    earlier one has no test for the empty rule and tests [last == 0]).
    The result is the error text or the pattern; a panic of
    [ParseColorize] goes through. *)
Definition parsePattern (filename : string) (num : Z) (line : string)
    : result (string + Pattern) :=
  let line := TrimSpace line in
  if (String.length line =? 0)%nat then
    Ok (inl (errorAt filename num "bad format: empty rule"))
  else
    match String.get 0 line with
    | Some a =>
        if negb (Ascii.eqb a "/") then
          Ok (inl (errorAt filename num
                     "bad format: unexpected begin of regular expression"))
        else
          let last := LastIndexByte line "/" in
          if last =? -1 then
            Ok (inl (errorAt filename num
                       "bad format: can not find end of regular expression"))
          else if last <=? 1 then
            Ok (inl (errorAt filename num "bad format: empty regular expression"))
          else
            match Compile (substr line 1 last) with
            | inl err => Ok (inl (errorAt filename num err))
            | inr re =>
                r ← parseNames filename num 0
                      (StringsSplit (substrFrom line (last + 1)) ",") ∅;
                match r with
                | inl err => Ok (inl err)
                | inr names =>
                    Ok (inr (mkPattern (FindAllSubmatchIndex re)
                               (attachGroups 0 (SubexpNames re) names [])))
                end
            end
    | None => Panic "index out of range"
    end.

(** [bufio.Reader.ReadString]: the bytes up to and including the first
    [delim], whatever the size of the buffer; when the input ends
    first, what is left and the error of the source. *)
Definition ReadString (b : Reader) (delim : ascii) : string * option error * Reader :=
  match IndexByte (unread b) delim with
  | Some i =>
      (string_of_list_ascii (take (S i) (unread b)), None,
       mkReader (bufSize b) (drop (S i) (unread b)) (srcFailure b))
  | None =>
      (string_of_list_ascii (unread b), Some (endError (srcFailure b)),
       mkReader (bufSize b) [] (srcFailure b))
  end.

(** [bufio.NewReader]: the default size is 4096. *)
Definition NewReader (rd : Source) : Reader := NewReaderSize rd 4096.

(** The loop [for readerErr == nil] of [readPatternsFromFile]; every
    turn that goes on has read at least one byte. *)
Fixpoint readRules (fuel : nat) (filename : string) (reader : Reader)
    (lineNum : Z) (patterns : list Pattern)
    : result (list Pattern * option ruleError) :=
  match fuel with
  | O => OutOfFuel
  | S fuel' =>
      let lineNum := lineNum + 1 in
      let '(line, readerErr, reader) := ReadString reader newline in
      match readerErr with
      | Some (ErrIO msg) => Ok (patterns, Some (ReadFailure (ErrIO msg)))
      | Some ErrBufferFull => Ok (patterns, Some (ReadFailure ErrBufferFull))
      | _ =>
          let line := TrimSpace line in
          if (String.length line =? 0)%nat || HasPrefix line "#" then
            match readerErr with
            | None => readRules fuel' filename reader lineNum patterns
            | Some _ => Ok (patterns, None)
            end
          else
            r ← parsePattern filename lineNum line;
            match r with
            | inl err => Ok (patterns, Some (BadRule err))
            | inr pattern =>
                match readerErr with
                | None => readRules fuel' filename reader lineNum (patterns ++ [pattern])
                | Some _ => Ok (patterns ++ [pattern], None)
                end
            end
      end
  end.

Definition readPatternsFromFile (filename : string) (rd : Source)
    : result (list Pattern * option ruleError) :=
  readRules (S (length (data rd))) filename (NewReader rd) 0 [].

End Parse.

(** [strings.TrimSpace] on 7-bit input: blanks, tabs, newlines, vertical
    tabs, form feeds and carriage returns go from both ends. *)
Definition isSpace (a : ascii) : bool :=
  let n := nat_of_ascii a in
  (n =? 32)%nat || ((9 <=? n)%nat && (n <=? 13)%nat).

Fixpoint trimLeft (s : string) : string :=
  match s with
  | EmptyString => EmptyString
  | String a s' => if isSpace a then trimLeft s' else s
  end.

Fixpoint trimRight (s : string) : string :=
  match s with
  | EmptyString => EmptyString
  | String a s' =>
      match trimRight s' with
      | EmptyString => if isSpace a then EmptyString else String a EmptyString
      | t => String a t
      end
  end.

Definition asciiTrimSpace (s : string) : string := trimRight (trimLeft s).

End Rules.

(** ** Regular expressions used in the examples *)

Module Examples.
Import Color Cfilter.

Fixpoint hasPrefix (needle hay : bytes) : bool :=
  match needle, hay with
  | [], _ => true
  | _ :: _, [] => false
  | a :: needle', b :: hay' => Ascii.eqb a b && hasPrefix needle' hay'
  end.

(** The start offsets of the leftmost non-overlapping occurrences of a
    non-empty [needle]; [off] is the offset of the head of [hay] and
    [skip] the number of bytes still covered by the last occurrence. *)
Fixpoint findAll (needle hay : bytes) (off : Z) (skip : nat) : list Z :=
  match hay with
  | [] => []
  | _ :: hay' =>
      match skip with
      | S k => findAll needle hay' (off + 1) k
      | O =>
          if hasPrefix needle hay
          then off :: findAll needle hay' (off + 1) (length needle - 1)
          else findAll needle hay' (off + 1) 0
      end
  end.

Definition B (s : string) : bytes := list_ascii_of_string s.

(** [FindAllSubmatchIndex] of the regular expression [(?P<x>word)]. *)
Definition literalRE (word : string) (line : bytes) : list (list Z) :=
  let n := Z.of_nat (String.length word) in
  map (fun s => [s; s + n; s; s + n]) (findAll (B word) line 0 0).


(** The colour specification [spec], as [parsePattern] resolves it. *)
Definition colorize (spec : string) : Colorize :=
  match ParseColorize asciiToLower spec with
  | Ok c => c
  | _ => ∅
  end.

(** The rule [/(?P<x>word)/x:spec]. *)
Definition rule (word spec : string) : Pattern :=
  mkPattern (literalRE word) [mkGroup "x" 1 (colorize spec)].

(** [FindAllSubmatchIndex] of [(?P<x>word)(?P<y>)]: the second group
    is empty in every match. *)
Definition emptyGroupRE (word : string) (line : bytes) : list (list Z) :=
  let n := Z.of_nat (String.length word) in
  map (fun s => [s; s + n; s; s + n; s + n; s + n]) (findAll (B word) line 0 0).


(** The rule [/(?P<x>word)(?P<y>)/x:spec,y:spec]. *)
Definition emptyGroupRule (word spec : string) : Pattern :=
  mkPattern (emptyGroupRE word)
    [mkGroup "x" 1 (colorize spec); mkGroup "y" 2 (colorize spec)].



(** The input made of the given lines, each ended by a newline. *)
Fixpoint linesOf (l : list string) : string :=
  match l with
  | [] => ""
  | x :: l' => x +:+ String newline (linesOf l')
  end.

Definition source (s : string) : Source := mkSource (B s) None.


(** Four rules on the line [aabbbccccddd], declared in the order
    [cccc], [bbb], [ddd], [aa]: eight events. *)
Definition fourRules : list Pattern :=
  [rule "cccc" "fg red"; rule "bbb" "fg green"; rule "ddd" "fg blue";
   rule "aa" "fg yellow"].

(** A [regexp.Compile] that knows one expression, [(?P<x>ERROR)], and
    refuses the others. *)
Definition exampleCompile (src : string) : string + Rules.Regexp :=
  if String.eqb src "(?P<x>ERROR)"
  then inr (Rules.mkRegexp (literalRE "ERROR") [""; "x"])
  else inl "unsupported expression".

End Examples.

(** * Vocabulary of the properties *)

Module Vocabulary.
Import Color Cfilter.

(** ** Colour specifications *)

(** The words [ParseColorize] accepts, after lowering. *)
Definition recognized (word : string) : bool :=
  isChannelBG word || isChannelFG word || String.eqb word "bright"
  || bool_decide (is_Some (AnsiColors word))
  || bool_decide (is_Some (AnsiProperties word)).

(** A token of a specification that is none of the accepted words. *)
Definition unknownToken (ToLower : string -> string) (tok : string) : Prop :=
  recognized (ToLower tok) = false /\ (0 < String.length (ToLower tok))%nat.





(** ** Captures and events *)

(** The captures of the colourised groups in the order the collection
    visits them: pattern number, group, start and end offset. *)
Definition matchCaptures (n : nat) (group : Group) (res : list (list Z))
    : list (nat * Group * Z * Z) :=
  map (fun m => (n, group, at_ m (Number group * 2), at_ m (Number group * 2 + 1))) res.

Definition groupCaptures (n : nat) (groups : list Group) (res : list (list Z))
    : list (nat * Group * Z * Z) :=
  flat_map (fun g => matchCaptures n g res) groups.

Fixpoint captures (n : nat) (patterns : list Pattern) (line : bytes)
    : list (nat * Group * Z * Z) :=
  match patterns with
  | [] => []
  | p :: rest => groupCaptures n (Groups p) (RE p line) ++ captures (S n) rest line
  end.

Definition startOf (cap : nat * Group * Z * Z) : LinePosition :=
  let '(n, g, s, e) := cap in mkLinePosition LinePositionStartKind n s (GroupColorize g).
Definition endOf (cap : nat * Group * Z * Z) : LinePosition :=
  let '(n, g, s, e) := cap in mkLinePosition LinePositionEndKind n e (GroupColorize g).

(** The events of one capture: none when it is empty, else its start
    and its end. *)
Definition captureEvents (cap : nat * Group * Z * Z) : LinePositions :=
  let '(n, g, s, e) := cap in
  if s =? e then [] else [startOf cap; endOf cap].

(** What the regexp package guarantees for the capture of [group] in the
    match [m]: both indices exist, and either they are equal (an empty
    or absent capture) or they delimit a non-empty part of the line. *)
Definition wfCapture (line : bytes) (group : Group) (m : list Z) : bool :=
  match m !! (Number group * 2)%nat, m !! (Number group * 2 + 1)%nat with
  | Some s, Some e =>
      (s =? e) || ((0 <=? s) && (s <? e) && (e <=? Z.of_nat (length line)))
  | _, _ => false
  end.

Definition wellFormed (patterns : list Pattern) (line : bytes) : bool :=
  forallb (fun p =>
    forallb (fun g => forallb (wfCapture line g) (RE p line)) (Groups p))
    patterns.



(** ** Output *)

(** The written bytes without the emitted escapes. *)
Definition textOf (out : list Write) : bytes :=
  flat_map (fun w => match w with Text b => b | Escape _ => [] end) out.

(** The emitted escapes, in order. *)
Definition escapesOf (out : list Write) : list string :=
  flat_map (fun w => match w with Text _ => [] | Escape s => [s] end) out.

Definition isDigit (a : ascii) : bool :=
  let n := nat_of_ascii a in (48 <=? n)%nat && (n <=? 57)%nat.

(** Digits and semicolons, then the final [m]. *)
Fixpoint sgrTail (s : string) : bool :=
  match s with
  | EmptyString => false
  | String a EmptyString => Ascii.eqb a "m"
  | String a s' => (isDigit a || Ascii.eqb a ";") && sgrTail s'
  end.

(** The form ESC [ digits and semicolons m. *)
Definition isSGR (s : string) : bool :=
  match s with
  | String a (String b s') =>
      Ascii.eqb a (ascii_of_nat 27) && Ascii.eqb b "[" && sgrTail s'
  | _ => false
  end.

(** Digits and semicolons only. *)
Fixpoint sgrBody (s : string) : bool :=
  match s with
  | EmptyString => true
  | String a s' => (isDigit a || Ascii.eqb a ";") && sgrBody s'
  end.




(** No two neighbours are equal. *)
Fixpoint noRepeat (l : list string) : bool :=
  match l with
  | a :: ((b :: _) as l') => negb (String.eqb a b) && noRepeat l'
  | _ => true
  end.

(** The memory of the sweep: the escapes written on the line so far
    have no equal neighbours and the required form, and [prevEscape] is
    the last of them, or empty when there is none yet. *)
Definition memoryInv (out : list Write) (prevEscape : string) : Prop :=
  noRepeat (escapesOf out) = true /\
  Forall (fun e => isSGR e = true) (escapesOf out) /\
  (last (escapesOf out) = Some prevEscape \/
   (escapesOf out = [] /\ prevEscape = "")).

(** ** Priority *)

(** The contribution of the highest pattern number whose contribution
    is not empty, if there is one. *)
Definition highestActive (a : list Z) : option Z :=
  last (filter (fun v => 0 < v) a).

(** The state after the events [evs]. *)
Definition applyEvents (st : State) (evs : LinePositions) : State :=
  foldl applyEvent st evs.




(** ** Sorting *)

Definition offsetLe (a b : LinePosition) : Prop := Offset a <= Offset b.

(** The events of [l] at offset [o], in the order of [l]. *)
Definition atOffset (o : Z) (l : LinePositions) : LinePositions :=
  filter (fun ev => Offset ev = o) l.

(** Events with equal offsets are in [sorted] in the order they have
    in [pos]: at every offset the two lists show the same events in the
    same order. *)
Definition keepsArrivalOrder (pos sorted : LinePositions) : Prop :=
  forall o, atOffset o sorted = atOffset o pos.

(** ** The read loop *)

(** The lines rendered one after the other, from line number [lineno]. *)
Fixpoint renderLines (sortPositions : LinePositions -> LinePositions)
    (rangeOrder : nat -> nat -> list nat) (patterns : list Pattern)
    (lineno : nat) (st : State) (sink : list Write) (lines : list bytes)
    : result (State * list Write) :=
  match lines with
  | [] => Ok (st, sink)
  | line :: rest =>
      '(st', out) ← processLine sortPositions rangeOrder patterns lineno st line;
      renderLines sortPositions rangeOrder patterns (S lineno) st' (sink ++ out) rest
  end.

(** The first line of the input reaches the match collection whole. *)
Definition firstLineWhole (bufferSize : Z) (rd : Source) : Prop :=
  forall l rest,
    data rd = l ++ newline :: rest -> newline ∉ l ->
    head (delivered bufferSize rd) = Some (l ++ [newline]).

(** ** Properties used by a pattern list *)

Definition propertiesOf (c : Colorize) : list string :=
  filter (fun k => is_Some (c !! k)) propertyKeys.

Definition usedProperties (patterns : list Pattern) : list string :=
  flat_map (fun p => flat_map (fun g => propertiesOf (GroupColorize g)) (Groups p)) patterns.

Definition atMostOneProperty (patterns : list Pattern) : bool :=
  match remove_dups (usedProperties patterns) with
  | [] | [_] => true
  | _ => false
  end.

(** ** Invariants *)


(** Where a capture comes from: pattern number [n] of the list, one of
    its groups, and one of its matches on the line. *)
Definition captureFrom (patterns : list Pattern) (line : bytes) (first : nat)
    (cap : nat * Group * Z * Z) : Prop :=
  let '(n, g, s, e) := cap in
  exists p m, (first <= n)%nat /\ patterns !! (n - first)%nat = Some p /\
    g ∈ Groups p /\ m ∈ RE p line /\
    m !! (Number g * 2)%nat = Some s /\ m !! (Number g * 2 + 1)%nat = Some e.

(** The keys of the property counters are properties of the rules. *)
Definition keysUsed (patterns : list Pattern) (st : State) : Prop :=
  forall k, is_Some (lineProperties st !! k) -> k ∈ usedProperties patterns.

(** The properties of an event are properties of the rules. *)
Definition eventUsed (patterns : list Pattern) (ev : LinePosition) : Prop :=
  forall k, k ∈ propertiesOf (PosColorize ev) -> k ∈ usedProperties patterns.

(** ** More about colour specifications *)

(** The tokens of a specification: the pieces that are not empty. *)
Definition tokens (spec : string) : list string :=
  filter (fun w => w <> "") (Split spec).

(** The six keys a [Colorize] can have. *)
Definition colorizeKeys : list string :=
  ForegroundColor :: BackgroundColor :: propertyKeys.

(** The keys of the result and the values under the property keys. *)
Definition keysInv (c : Colorize) (colorType : string) : Prop :=
  (colorType = ForegroundColor \/ colorType = BackgroundColor) /\
  forall k v, c !! k = Some v ->
    k ∈ colorizeKeys /\ (forall pv, AnsiProperties k = Some pv -> v = pv).

(** ** More about the sweep *)

(** The event carries the property [k]. *)
Definition carries (k : string) (ev : LinePosition) : bool :=
  bool_decide (k ∈ propertyKeys /\ is_Some (PosColorize ev !! k)).

(** The starts carrying [k] minus the ends carrying [k] among [evs]. *)
Definition netCount (k : string) (evs : LinePositions) : Z :=
  foldr (fun ev acc =>
           (if carries k ev
            then match Kind ev with
                 | LinePositionStartKind => 1
                 | LinePositionEndKind => -1
                 end
            else 0) + acc) 0 evs.

(** No colour is in force: every entry of the two arrays is 0. *)
Definition colorsAtRest (np : nat) (st : State) : Prop :=
  lineColorFG st = replicate np 0 /\ lineColorBG st = replicate np 0.

(** Every start of pattern [n] in the list has an end of pattern [n]
    behind it. *)
Definition startsClosed (n : nat) (l : LinePositions) : Prop :=
  forall l1 x l2,
    l = l1 ++ x :: l2 -> Kind x = LinePositionStartKind -> Order x = n ->
    exists y, y ∈ l2 /\ Kind y = LinePositionEndKind /\ Order y = n.

(** Some pattern matches the line. *)
Definition matchesLine (patterns : list Pattern) (line : bytes) : bool :=
  existsb (fun p => negb (bool_decide (RE p line = []))) patterns.

(** The lines that some pattern matches, joined. *)
Definition matchedText (patterns : list Pattern) (lines : list bytes) : bytes :=
  flat_map (fun line => if matchesLine patterns line then line else []) lines.

(** What package [regexp] promises of [FindAllSubmatchIndex]: a match
    has two indices for each entry of [SubexpNames], and each pair is
    [-1, -1] for a group that took no part or delimits a part of the
    line. *)
Definition regexpContract (re : Rules.Regexp) : Prop :=
  forall (line : bytes) (m : list Z),
    m ∈ Rules.FindAllSubmatchIndex re line ->
    length m = (2 * length (Rules.SubexpNames re))%nat /\
    forall k s e,
      m !! (k * 2)%nat = Some s -> m !! (k * 2 + 1)%nat = Some e ->
      (s = -1 /\ e = -1) \/ (0 <= s /\ s <= e /\ e <= Z.of_nat (length line)).

(** The input is made of whole lines: it is empty or ends in a newline. *)
Definition wholeLines (input : bytes) : Prop :=
  input = [] \/ last input = Some newline.

(** An entry of the colour list of a rule that [parsePattern] takes:
    it is empty, or it has one colon and a colour specification that
    [ParseColorize] accepts. *)
Definition goodEntry (ToLower : string -> string) (s : string) : Prop :=
  s = "" \/
  exists name spec c,
    Rules.StringsSplit s ":" = [name; spec] /\ ParseColorize ToLower spec = Ok c.

(** The number of bytes [c] in [l]. *)
Definition countByte (c : ascii) (l : bytes) : nat :=
  length (filter (fun a => a = c) l).

End Vocabulary.

(** * Theorems *)

Import Color Cfilter Vocabulary.

Lemma rbind_Ok_inv {A B} (r : result A) (k : A -> result B) b :
  rbind r k = Ok b -> exists a, r = Ok a /\ k a = Ok b.
Proof. destruct r; simpl; intros H; try discriminate. eauto. Qed.

(** ** Colour specifications *)

Section ColorFacts.

Variable ToLower : string -> string.

Lemma recognized_false word :
  recognized word = false ->
  isChannelBG word = false /\ isChannelFG word = false /\
  String.eqb word "bright" = false /\
  AnsiColors word = None /\ AnsiProperties word = None.
Proof.
  unfold recognized. rewrite !orb_false_iff.
  intros [[[[-> ->] ->] Hc] Hp].
  apply bool_decide_eq_false in Hc, Hp.
  rewrite <- !eq_None_not_Some in Hc, Hp. auto.
Qed.

Lemma parseWords_unknown words :
  forall c colorAddon colorType,
    (exists tok, tok ∈ words /\ unknownToken ToLower tok) ->
    exists msg, parseWords ToLower words c colorAddon colorType = Panic msg.
Proof.
  induction words as [|word rest IH]; intros c colorAddon colorType [tok [Hin Hun]].
  - inversion Hin.
  - simpl.
    destruct (decide (tok = word)) as [->|Hne].
    + destruct Hun as [Hrec Hlen].
      apply recognized_false in Hrec as (-> & -> & -> & -> & ->).
      apply Nat.ltb_lt in Hlen. rewrite Hlen. eauto.
    + assert (exists tok, tok ∈ rest /\ unknownToken ToLower tok) as Hrest.
      { exists tok. split; [|done]. apply elem_of_cons in Hin as [?|?]; done. }
      repeat case_match; eauto.
  Qed.

(** C7.  A colour specification with a token that is none of the channel
    keywords, the colour names, the property names or [bright] makes
    [ParseColorize] panic: no [Colorize] is returned. *)
Theorem C7_unknown_token_panics (spec : string) :
  (exists tok, tok ∈ Split spec /\ unknownToken ToLower tok) ->
  exists msg, ParseColorize ToLower spec = Panic msg.
Proof. intros H. unfold ParseColorize. by apply parseWords_unknown. Qed.

End ColorFacts.

(** C7 at the specification [fg red pink bold]. *)
Lemma C7_unknown_token_panics_witness :
  exists msg, ParseColorize asciiToLower "fg red pink bold" = Panic msg.
Proof.
  apply (C7_unknown_token_panics asciiToLower "fg red pink bold").
  exists "pink". split.
  - vm_compute. repeat (first [apply list_elem_of_here | apply list_elem_of_further]).
  - split; [reflexivity | vm_compute; lia].
Defined.

Section ChannelCodes.

Variable ToLower : string -> string.


Lemma AnsiProperties_key word v :
  AnsiProperties word = Some v -> word ∈ propertyKeys.
Proof.
  unfold AnsiProperties, AnsiPropertiesTable, assoc.
  repeat (case_match;
          [match goal with H : String.eqb _ _ = true |- _ => apply String.eqb_eq in H as <- end;
           intros _; vm_compute;
           repeat (first [apply list_elem_of_here | apply list_elem_of_further])|]).
  discriminate.
Qed.







End ChannelCodes.



(** ** Match collection *)

Lemma index_Ok m i v : index m i = Ok v -> m !! i = Some v /\ at_ m i = v.
Proof.
  unfold index, at_. destruct (m !! i); intros [= <-]. auto.
Qed.

Lemma collectMatches_spec res :
  forall n group acc pos,
    collectMatches n group res acc = Ok pos ->
    pos = acc ++ flat_map captureEvents (matchCaptures n group res).
Proof.
  induction res as [|m res IH]; intros n group acc pos; simpl.
  - intros [= <-]. by rewrite app_nil_r.
  - unfold_bind.
    destruct (index m (Number group * 2)) as [s| |] eqn:Es; try discriminate.
    destruct (index m (Number group * 2 + 1)) as [e| |] eqn:Ee; try discriminate.
    apply index_Ok in Es as [_ ->]. apply index_Ok in Ee as [_ ->].
    destruct (_ =? _) eqn:Eq; intros H; apply IH in H; subst pos.
    + reflexivity.
    + by rewrite <- app_assoc.
Qed.

Lemma collectGroups_spec groups :
  forall n res acc pos,
    collectGroups n groups res acc = Ok pos ->
    pos = acc ++ flat_map captureEvents (groupCaptures n groups res).
Proof.
  induction groups as [|g groups IH]; intros n res acc pos; simpl.
  - intros [= <-]. by rewrite app_nil_r.
  - unfold_bind.
    destruct (collectMatches n g res acc) as [pos1| |] eqn:E1; try discriminate.
    apply collectMatches_spec in E1. intros H. apply IH in H. subst.
    unfold groupCaptures. simpl. fold (groupCaptures n groups res).
    by rewrite flat_map_app, app_assoc.
Qed.

Lemma groupCaptures_nil n groups : groupCaptures n groups [] = [].
Proof. unfold groupCaptures. induction groups; simpl; auto. Qed.

Lemma collectPatterns_spec patterns :
  forall n line lm acc lm' pos,
    collectPatterns n patterns line lm acc = Ok (lm', pos) ->
    pos = acc ++ flat_map captureEvents (captures n patterns line) /\
    lm' = lm || existsb (fun p => negb (bool_decide (RE p line = []))) patterns.
Proof.
  induction patterns as [|p rest IH]; intros n line lm acc lm' pos; simpl.
  - intros [= <- <-]. by rewrite app_nil_r, orb_false_r.
  - destruct (RE p line) as [|m res] eqn:Eres.
    + intros H. apply IH in H as [-> ->].
      rewrite groupCaptures_nil. simpl. done.
    + unfold_bind.
      destruct (collectGroups n (Groups p) (m :: res) acc) as [pos1| |] eqn:E1;
        try discriminate.
      apply collectGroups_spec in E1. intros H. apply IH in H as [-> ->]. subst.
      rewrite flat_map_app, app_assoc. split; [done|].
      simpl. by rewrite orb_true_r.
Qed.

Lemma collect_spec patterns line lm pos :
  collect patterns line = Ok (lm, pos) ->
  pos = flat_map captureEvents (captures 0 patterns line) /\
  lm = existsb (fun p => negb (bool_decide (RE p line = []))) patterns.
Proof. intros H. by apply collectPatterns_spec in H. Qed.

(** The collection does not panic on well-formed matches. *)
Lemma wfCapture_indices line g m :
  wfCapture line g m = true ->
  exists s e, index m (Number g * 2) = Ok s /\ index m (Number g * 2 + 1) = Ok e /\
    (s = e \/ 0 <= s < e /\ e <= Z.of_nat (length line)).
Proof.
  unfold wfCapture, index.
  destruct (m !! _) as [s|]; [|discriminate].
  destruct (m !! _) as [e|]; [|discriminate].
  intros H. exists s, e. repeat split; try done.
  apply orb_true_iff in H as [H|H]; [left; lia|right].
  apply andb_true_iff in H as [H1 H3]. apply andb_true_iff in H1 as [H1 H2]. lia.
Qed.

Lemma collectMatches_total line res :
  forall n group acc,
    forallb (wfCapture line group) res = true ->
    exists pos, collectMatches n group res acc = Ok pos.
Proof.
  induction res as [|m res IH]; intros n group acc; simpl; [eauto|].
  intros H. apply andb_true_iff in H as [Hm Hres].
  apply wfCapture_indices in Hm as (s & e & -> & -> & _).
  unfold_bind. destruct (s =? e); eauto.
Qed.

Lemma collectGroups_total line groups :
  forall n res acc,
    forallb (fun g => forallb (wfCapture line g) res) groups = true ->
    exists pos, collectGroups n groups res acc = Ok pos.
Proof.
  induction groups as [|g groups IH]; intros n res acc; simpl; [eauto|].
  intros H. apply andb_true_iff in H as [Hg Hgs].
  destruct (collectMatches_total line res n g acc Hg) as [pos1 ->].
  unfold_bind. eauto.
Qed.

Lemma collectPatterns_total patterns :
  forall n line lm acc,
    wellFormed patterns line = true ->
    exists lm' pos, collectPatterns n patterns line lm acc = Ok (lm', pos).
Proof.
  induction patterns as [|p rest IH]; intros n line lm acc; simpl; [eauto|].
  intros H. apply andb_true_iff in H as [Hp Hrest].
  destruct (RE p line) as [|m res] eqn:Eres; [by apply IH|].
  destruct (collectGroups_total line (Groups p) n (m :: res) acc Hp) as [pos1 ->].
  unfold_bind. by apply IH.
Qed.

Lemma collect_total patterns line :
  wellFormed patterns line = true ->
  exists lm pos, collect patterns line = Ok (lm, pos).
Proof. apply collectPatterns_total. Qed.

Lemma collectMatches_lookup res :
  forall n group acc pos,
    collectMatches n group res acc = Ok pos ->
    forall cap, cap ∈ matchCaptures n group res ->
      exists m s e, cap = (n, group, s, e) /\ m ∈ res /\
        m !! (Number group * 2)%nat = Some s /\
        m !! (Number group * 2 + 1)%nat = Some e.
Proof.
  induction res as [|m res IH]; intros n group acc pos; simpl.
  - intros _ cap Hcap. inversion Hcap.
  - unfold_bind.
    destruct (index m (Number group * 2)) as [s| |] eqn:Es; try discriminate.
    destruct (index m (Number group * 2 + 1)) as [e| |] eqn:Ee; try discriminate.
    apply index_Ok in Es as [Hs Hs']. apply index_Ok in Ee as [He He'].
    intros H cap Hcap.
    apply elem_of_cons in Hcap as [->|Hcap].
    + exists m, s, e. rewrite Hs', He'. repeat split; try done. apply list_elem_of_here.
    + assert (exists pos', collectMatches n group res
                (if s =? e then acc else acc ++
                   [mkLinePosition LinePositionStartKind n s (GroupColorize group);
                    mkLinePosition LinePositionEndKind n e (GroupColorize group)]) = Ok pos')
        as [pos' Hpos'] by (destruct (s =? e); eauto).
      destruct (IH _ _ _ _ Hpos' cap Hcap) as (m' & s' & e' & ? & ? & ? & ?).
      exists m', s', e'. repeat split; try done. by apply list_elem_of_further.
Qed.

Lemma collectGroups_lookup groups :
  forall n res acc pos,
    collectGroups n groups res acc = Ok pos ->
    forall cap, cap ∈ groupCaptures n groups res ->
      exists g m s e, cap = (n, g, s, e) /\ g ∈ groups /\ m ∈ res /\
        m !! (Number g * 2)%nat = Some s /\ m !! (Number g * 2 + 1)%nat = Some e.
Proof.
  induction groups as [|g groups IH]; intros n res acc pos; simpl.
  - intros _ cap Hcap. inversion Hcap.
  - unfold_bind.
    destruct (collectMatches n g res acc) as [pos1| |] eqn:E1; try discriminate.
    intros H cap Hcap. unfold groupCaptures in Hcap. simpl in Hcap.
    apply elem_of_app in Hcap as [Hcap|Hcap].
    + destruct (collectMatches_lookup _ _ _ _ _ E1 cap Hcap) as (m & s & e & ? & ? & ? & ?).
      exists g, m, s, e. repeat split; try done. apply list_elem_of_here.
    + destruct (IH _ _ _ _ H cap Hcap) as (g' & m & s & e & ? & ? & ? & ? & ?).
      exists g', m, s, e. repeat split; try done. by apply list_elem_of_further.
Qed.

Lemma collectPatterns_lookup patterns :
  forall n line lm acc lm' pos,
    collectPatterns n patterns line lm acc = Ok (lm', pos) ->
    forall cap, cap ∈ captures n patterns line -> captureFrom patterns line n cap.
Proof.
  induction patterns as [|p rest IH]; intros n line lm acc lm' pos; simpl.
  - intros _ cap Hcap. inversion Hcap.
  - intros H cap Hcap.
    assert (forall cap, cap ∈ captures (S n) rest line ->
                        captureFrom (p :: rest) line n cap) as Hrest'.
    { intros [[[n' g] s] e] Hc.
      assert (exists lm1 acc1, collectPatterns (S n) rest line lm1 acc1 = Ok (lm', pos))
        as (lm1 & acc1 & Hrest).
      { destruct (RE p line); [eauto|]. unfold_bind.
        destruct (collectGroups _ _ _ _); try discriminate. eauto. }
      destruct (IH _ _ _ _ _ _ Hrest _ Hc) as (p' & m & Hle & Hp' & ? & ? & ? & ?).
      exists p', m. repeat split; try done; [lia|].
      replace (n' - n)%nat with (S (n' - S n)) by lia. done. }
    apply elem_of_app in Hcap as [Hcap|Hcap]; [|by apply Hrest'].
    destruct (RE p line) as [|m0 res] eqn:Eres.
    { rewrite groupCaptures_nil in Hcap. inversion Hcap. }
    unfold_bind.
    destruct (collectGroups n (Groups p) (m0 :: res) acc) as [pos1| |] eqn:E1;
      try discriminate.
    destruct (collectGroups_lookup _ _ _ _ _ E1 cap Hcap)
      as (g & m & s & e & -> & ? & ? & ? & ?).
    exists p, m. rewrite Nat.sub_diag, Eres. repeat split; done.
Qed.

Lemma captureEvents_elem ev cap :
  ev ∈ captureEvents cap ->
  cap.1.2 <> cap.2 /\ (ev = startOf cap \/ ev = endOf cap).
Proof.
  destruct cap as [[[n g] s] e]. unfold captureEvents.
  destruct (Z.eqb_spec s e); [intros H; inversion H|].
  intros H. split; [done|].
  apply elem_of_cons in H as [->|H]; [by left|].
  apply elem_of_cons in H as [->|H]; [by right|]. inversion H.
Qed.

Lemma elem_of_flat_map {A B} (f : A -> list B) (l : list A) (y : B) :
  y ∈ flat_map f l <-> exists x, x ∈ l /\ y ∈ f x.
Proof.
  rewrite list_elem_of_In, in_flat_map.
  split; intros (x & Hx & Hy); exists x; by rewrite ?list_elem_of_In in *.
Qed.

Lemma collect_provenance (patterns : list Pattern) (line : bytes)
    (lineMatches : bool) (positions : LinePositions) :
  collect patterns line = Ok (lineMatches, positions) ->
  forall ev, ev ∈ positions ->
     exists n p g m s e,
       patterns !! n = Some p /\ g ∈ Groups p /\ m ∈ RE p line /\
       m !! (Number g * 2)%nat = Some s /\ m !! (Number g * 2 + 1)%nat = Some e /\
       s <> e /\ (ev = startOf (n, g, s, e) \/ ev = endOf (n, g, s, e)).
Proof.
  intros H. pose proof (collect_spec _ _ _ _ H) as [Hpos _].
  intros ev Hev. rewrite Hpos in Hev.
  apply elem_of_flat_map in Hev as ([[[n g] s] e] & Hcap & Hev).
  apply captureEvents_elem in Hev as [Hne Hev]. simpl in Hne.
  apply (collectPatterns_lookup _ _ _ _ _ _ _ H) in Hcap
    as (p & m & _ & Hp & Hg & Hm & Hs & He).
  rewrite Nat.sub_0_r in Hp.
  exists n, p, g, m, s, e. repeat split; done.
Qed.

(** C9.  The events of a line are, in order, the start and the end of
    each capture whose two offsets differ; a capture whose start offset
    equals its end offset gives no event, and every event is the start
    or the end of a capture with different offsets. *)
Theorem C9_empty_capture_no_event (patterns : list Pattern) (line : bytes)
    (lineMatches : bool) (positions : LinePositions) :
  collect patterns line = Ok (lineMatches, positions) ->
  positions = flat_map captureEvents (captures 0 patterns line) /\
  (forall n g s, captureEvents (n, g, s, s) = []) /\
  (forall ev, ev ∈ positions ->
     exists n p g m s e,
       patterns !! n = Some p /\ g ∈ Groups p /\ m ∈ RE p line /\
       m !! (Number g * 2)%nat = Some s /\ m !! (Number g * 2 + 1)%nat = Some e /\
       s <> e /\ (ev = startOf (n, g, s, e) \/ ev = endOf (n, g, s, e))).
Proof.
  intros H. pose proof (collect_spec _ _ _ _ H) as [Hpos _].
  split; [done|]. split.
  { intros n g s. unfold captureEvents. by rewrite Z.eqb_refl. }
  by apply (collect_provenance patterns line lineMatches).
Qed.

(** ** The sweep: what is written *)

Lemma textOf_app out1 out2 : textOf (out1 ++ out2) = textOf out1 ++ textOf out2.
Proof. unfold textOf. apply flat_map_app. Qed.

Lemma escapesOf_app out1 out2 :
  escapesOf (out1 ++ out2) = escapesOf out1 ++ escapesOf out2.
Proof. unfold escapesOf. apply flat_map_app. Qed.

Lemma slice_Ok (line : bytes) lo hi :
  0 <= lo <= hi -> hi <= Z.of_nat (length line) ->
  slice line lo hi = Ok (take (Z.to_nat (hi - lo)) (drop (Z.to_nat lo) line)).
Proof.
  intros [H1 H2] H3. unfold slice.
  destruct (Z.leb_spec 0 lo); [|lia].
  destruct (Z.leb_spec lo hi); [|lia].
  destruct (Z.leb_spec hi (Z.of_nat (length line))); [|lia]. done.
Qed.

Lemma take_drop_chain (line : bytes) a b c :
  0 <= a <= b -> b <= c ->
  take (Z.to_nat (b - a)) (drop (Z.to_nat a) line)
    ++ take (Z.to_nat (c - b)) (drop (Z.to_nat b) line)
  = take (Z.to_nat (c - a)) (drop (Z.to_nat a) line).
Proof.
  intros [Ha Hab] Hbc.
  replace (Z.to_nat b) with (Z.to_nat a + Z.to_nat (b - a))%nat by lia.
  rewrite <- drop_drop, take_take_drop. f_equal. lia.
Qed.

Section SweepFacts.

Variable sortPositions : LinePositions -> LinePositions.
Variable rangeOrder : nat -> nat -> list nat.

(** The sweep does not panic when no offset lies beyond the line, and
    the text it writes is the part of the line it has passed. *)
Lemma sweep_text positions :
  forall np lineno i (line : bytes) st out lineOffset prevEscape,
    0 <= lineOffset <= Z.of_nat (length line) ->
    Forall (fun ev => Offset ev <= Z.of_nat (length line)) positions ->
    exists st' out' lineOffset' prevEscape',
      sweep rangeOrder np lineno i positions line st out lineOffset prevEscape
        = Ok (st', out', lineOffset', prevEscape') /\
      lineOffset <= lineOffset' <= Z.of_nat (length line) /\
      textOf out' = textOf out ++
        take (Z.to_nat (lineOffset' - lineOffset)) (drop (Z.to_nat lineOffset) line).
Proof.
  induction positions as [|pos rest IH];
    intros np lineno i line st out lineOffset prevEscape Hlo Hall.
  - exists st, out, lineOffset, prevEscape. simpl.
    split; [done|]. split; [lia|].
    rewrite Z.sub_diag. simpl. by rewrite app_nil_r.
  - apply Forall_cons in Hall as [Hpos Hrest]. simpl.
    destruct (Z.ltb_spec lineOffset (Offset pos)) as [Hlt|Hge].
    + rewrite slice_Ok by lia. unfold_bind. simpl.
      rewrite Z.eqb_refl.
      set (chunk := take _ _).
      destruct (String.eqb prevEscape _).
      * edestruct (IH np lineno (S i) line (applyEvent st pos)
                     (out ++ [Text chunk]) (Offset pos) prevEscape)
          as (st' & out' & lo' & prev' & -> & Hlo' & Htext); [lia|done|].
        exists st', out', lo', prev'. split; [done|]. split; [lia|].
        rewrite Htext, textOf_app. simpl. rewrite app_nil_r, <- app_assoc.
        f_equal. apply take_drop_chain; lia.
      * edestruct (IH np lineno (S i) line (applyEvent st pos)
                     ((out ++ [Text chunk]) ++
                        [Escape (computeEscape rangeOrder np lineno i (applyEvent st pos))])
                     (Offset pos)
                     (computeEscape rangeOrder np lineno i (applyEvent st pos)))
          as (st' & out' & lo' & prev' & -> & Hlo' & Htext); [lia|done|].
        exists st', out', lo', prev'. split; [done|]. split; [lia|].
        rewrite Htext, !textOf_app. simpl. rewrite !app_nil_r, <- app_assoc.
        f_equal. apply take_drop_chain; lia.
    + unfold_bind. simpl.
      destruct (lineOffset =? Offset pos); [destruct (String.eqb prevEscape _)|].
      * apply IH; done.
      * edestruct (IH np lineno (S i) line (applyEvent st pos)
                     (out ++ [Escape (computeEscape rangeOrder np lineno i (applyEvent st pos))])
                     lineOffset
                     (computeEscape rangeOrder np lineno i (applyEvent st pos)))
          as (st' & out' & lo' & prev' & -> & Hlo' & Htext); [lia|done|].
        exists st', out', lo', prev'. split; [done|]. split; [lia|].
        rewrite Htext, textOf_app. simpl. by rewrite app_nil_r.
      * apply IH; done.
Qed.

End SweepFacts.

(** ** The form of the escapes *)

Lemma append_assoc (a b c : string) : (a +:+ b) +:+ c = a +:+ b +:+ c.
Proof.
  induction a as [|x a IH]; [done|].
  change (String x ((a +:+ b) +:+ c) = String x (a +:+ b +:+ c)).
  by rewrite IH.
Qed.

Lemma sgrBody_app a b : sgrBody (a +:+ b) = sgrBody a && sgrBody b.
Proof.
  induction a as [|c a IH]; simpl; [done|].
  rewrite IH. by rewrite andb_assoc.
Qed.

Lemma sgrTail_body b : sgrBody b = true -> sgrTail (b +:+ "m") = true.
Proof.
  induction b as [|c b IH]; simpl; [done|].
  intros H. apply andb_true_iff in H as [Hc Hb].
  rewrite Hc, (IH Hb). simpl.
  destruct (b +:+ "m") eqn:E; [|done].
  destruct b; discriminate.
Qed.

Lemma pretty_N_char_digit x : isDigit (pretty_N_char x) = true.
Proof. unfold pretty_N_char. by repeat case_match. Qed.

Lemma pretty_N_go_body x :
  forall s, sgrBody s = true -> sgrBody (pretty_N_go x s) = true.
Proof.
  induction (N.lt_wf_0 x) as [x _ IH]; intros s Hs.
  destruct (decide (x = 0)%N) as [->|Hne]; [by rewrite pretty_N_go_0|].
  rewrite pretty_N_go_step by lia.
  apply IH; [apply N.div_lt; lia|].
  simpl. by rewrite pretty_N_char_digit, Hs.
Qed.

Lemma Sprintf_d_body v : 0 <= v -> sgrBody (Sprintf_d v) = true.
Proof.
  unfold Sprintf_d, pretty, pretty_Z. destruct v as [|p|p]; [done| |lia].
  intros _. unfold pretty, pretty_positive, pretty, pretty_N.
  case_decide; [done|]. by apply pretty_N_go_body.
Qed.

Lemma Property_nonneg name isset : 0 <= Property name isset.
Proof.
  unfold Property. destruct (AnsiProperties name) as [v|] eqn:E; [|lia].
  assert (0 <= v).
  { unfold AnsiProperties, AnsiPropertiesTable, assoc in E.
    repeat (case_match; [injection E as <-; unfold bold, blink, underline, inverse; lia|]).
    discriminate. }
  destruct isset; [done|]. unfold revertProp. case_match; lia.
Qed.

Lemma propsString_body kvs : sgrBody (propsString kvs) = true.
Proof.
  unfold propsString.
  assert (forall acc, sgrBody acc = true ->
            sgrBody (foldl (fun props kv =>
              props +:+ Sprintf_d (Property kv.1 (0 <? kv.2)) +:+ ";") acc kvs) = true)
    as H; [|by apply H].
  induction kvs as [|kv kvs IH]; intros acc Hacc; simpl; [done|].
  apply IH. rewrite !sgrBody_app, Hacc, Sprintf_d_body by apply Property_nonneg. done.
Qed.

Lemma findLoop_nonneg n1 :
  forall fg bg f b, 0 <= f -> 0 <= b ->
    0 <= (findLoop n1 fg bg f b).1 /\ 0 <= (findLoop n1 fg bg f b).2.
Proof.
  induction n1 as [|n IH]; intros fg bg f b Hf Hb; simpl; [done|].
  destruct ((f =? 0) || (b =? 0)); [|done].
  apply IH.
  - destruct ((f =? 0) && (0 <? at_ fg n)) eqn:E; [|done].
    apply andb_true_iff in E as [_ E]. apply Z.ltb_lt in E. lia.
  - destruct ((b =? 0) && (0 <? at_ bg n)) eqn:E; [|done].
    apply andb_true_iff in E as [_ E]. apply Z.ltb_lt in E. lia.
Qed.

Lemma findColors_pos np fg bg :
  0 < (findColors np fg bg).1 /\ 0 < (findColors np fg bg).2.
Proof.
  unfold findColors.
  pose proof (findLoop_nonneg np fg bg 0 0 ltac:(lia) ltac:(lia)) as [Hf Hb].
  destruct (findLoop np fg bg 0 0) as [f b]. simpl in *.
  unfold ResetForeground, ResetBackground.
  destruct (Z.eqb_spec f 0), (Z.eqb_spec b 0); lia.
Qed.

Lemma escapeString_isSGR props f b :
  sgrBody props = true -> 0 <= f -> 0 <= b ->
  isSGR (escapeString props f b) = true.
Proof.
  intros Hp Hf Hb. unfold escapeString, AnsiStart.
  change (sgrTail (props +:+ Sprintf_d f +:+ ";" +:+ Sprintf_d b +:+ "m") = true).
  replace (props +:+ Sprintf_d f +:+ ";" +:+ Sprintf_d b +:+ "m")
    with ((props +:+ Sprintf_d f +:+ ";" +:+ Sprintf_d b) +:+ "m").
  - apply sgrTail_body.
    rewrite !sgrBody_app, Hp, !Sprintf_d_body by done. done.
  - by rewrite !append_assoc.
Qed.

Lemma computeEscape_isSGR rangeOrder np lineno i st :
  isSGR (computeEscape rangeOrder np lineno i st) = true.
Proof.
  unfold computeEscape.
  pose proof (findColors_pos np (lineColorFG st) (lineColorBG st)) as [Hf Hb].
  destruct (findColors _ _ _) as [f b]. simpl in *.
  apply escapeString_isSGR; [apply propsString_body|lia..].
Qed.

Lemma isSGR_nonempty e : isSGR e = true -> e <> "".
Proof. by destruct e. Qed.

(** ** The sweep: one event *)

Section SweepSteps.

Variable rangeOrder : nat -> nat -> list nat.

(** The cases of one turn of the sweep loop. *)
Lemma sweep_cons np lineno i pos rest (line : bytes) st out lineOffset prevEscape r :
  sweep rangeOrder np lineno i (pos :: rest) line st out lineOffset prevEscape = Ok r ->
  exists out1 lo1,
    ((lineOffset < Offset pos /\ lo1 = Offset pos /\
      exists chunk, slice line lineOffset (Offset pos) = Ok chunk /\
                    out1 = out ++ [Text chunk]) \/
     (Offset pos <= lineOffset /\ lo1 = lineOffset /\ out1 = out)) /\
    ((lo1 = Offset pos /\
      prevEscape = computeEscape rangeOrder np lineno i (applyEvent st pos) /\
      sweep rangeOrder np lineno (S i) rest line (applyEvent st pos) out1 lo1 prevEscape = Ok r) \/
     (lo1 = Offset pos /\
      prevEscape <> computeEscape rangeOrder np lineno i (applyEvent st pos) /\
      sweep rangeOrder np lineno (S i) rest line (applyEvent st pos)
        (out1 ++ [Escape (computeEscape rangeOrder np lineno i (applyEvent st pos))]) lo1
        (computeEscape rangeOrder np lineno i (applyEvent st pos)) = Ok r) \/
     (lo1 <> Offset pos /\
      sweep rangeOrder np lineno (S i) rest line st out1 lo1 prevEscape = Ok r)).
Proof.
  simpl. destruct (Z.ltb_spec lineOffset (Offset pos)) as [Hlt|Hge].
  - destruct (slice line lineOffset (Offset pos)) as [chunk| |] eqn:Es;
      unfold_bind; simpl; try discriminate.
    rewrite Z.eqb_refl. intros H.
    exists (out ++ [Text chunk]), (Offset pos). split; [left; eauto|].
    destruct (String.eqb_spec prevEscape
                (computeEscape rangeOrder np lineno i (applyEvent st pos))); eauto.
  - unfold_bind. simpl. intros H.
    exists out, lineOffset. split; [right; auto|].
    destruct (Z.eqb_spec lineOffset (Offset pos)); [|eauto].
    destruct (String.eqb_spec prevEscape
                (computeEscape rangeOrder np lineno i (applyEvent st pos))); eauto.
Qed.

Lemma noRepeat_snoc l e :
  noRepeat l = true -> last l <> Some e -> noRepeat (l ++ [e]) = true.
Proof.
  induction l as [|a l IH]; [done|].
  destruct l as [|b l]; simpl.
  - intros _ Hne. destruct (String.eqb_spec a e); [congruence|done].
  - intros H Hlast. apply andb_true_iff in H as [Hab Hl].
    rewrite Hab. simpl. apply IH; [done|]. exact Hlast.
Qed.

Lemma memoryInv_text out prev chunk :
  memoryInv out prev -> memoryInv (out ++ [Text chunk]) prev.
Proof. unfold memoryInv. rewrite escapesOf_app. simpl. by rewrite app_nil_r. Qed.

Lemma memoryInv_escape out prev e :
  memoryInv out prev -> prev <> e -> isSGR e = true ->
  memoryInv (out ++ [Escape e]) e.
Proof.
  unfold memoryInv. rewrite escapesOf_app. simpl.
  intros (Hrep & Hform & Hlast) Hne He. split; [|split].
  - apply noRepeat_snoc; [done|].
    destruct Hlast as [->|[-> ->]]; [congruence|done].
  - apply Forall_app. split; [done|]. by apply Forall_singleton.
  - left. by rewrite last_snoc.
Qed.

(** The sweep keeps the memory. *)
Lemma sweep_memory positions :
  forall np lineno i (line : bytes) st out lineOffset prevEscape st' out' lo' prev',
    memoryInv out prevEscape ->
    sweep rangeOrder np lineno i positions line st out lineOffset prevEscape
      = Ok (st', out', lo', prev') ->
    memoryInv out' prev'.
Proof.
  induction positions as [|pos rest IH];
    intros np lineno i line st out lineOffset prevEscape st' out' lo' prev' Hinv.
  - simpl. by intros [= <- <- <- <-].
  - intros H. apply sweep_cons in H as (out1 & lo1 & Hout1 & Hcase).
    assert (memoryInv out1 prevEscape) as Hinv1.
    { destruct Hout1 as [(_ & _ & chunk & _ & ->)|(_ & _ & ->)];
        [by apply memoryInv_text|done]. }
    destruct Hcase as [(_ & _ & H)|[(_ & Hne & H)|(_ & H)]].
    + eapply IH; [exact Hinv1|exact H].
    + eapply IH; [|exact H].
      eapply memoryInv_escape; [exact Hinv1|done|apply computeEscape_isSGR].
    + eapply IH; [exact Hinv1|exact H].
Qed.

(** What is written is only added to. *)
Lemma sweep_grows positions :
  forall np lineno i (line : bytes) st out lineOffset prevEscape st' out' lo' prev',
    sweep rangeOrder np lineno i positions line st out lineOffset prevEscape
      = Ok (st', out', lo', prev') ->
    exists more, out' = out ++ more.
Proof.
  induction positions as [|pos rest IH];
    intros np lineno i line st out lineOffset prevEscape st' out' lo' prev'.
  - simpl. intros [= <- <- <- <-]. exists []. by rewrite app_nil_r.
  - intros H. apply sweep_cons in H as (out1 & lo1 & Hout1 & Hcase).
    assert (exists more1, out1 = out ++ more1) as [more1 ->].
    { destruct Hout1 as [(_ & _ & chunk & _ & ->)|(_ & _ & ->)];
        [eauto|exists []; by rewrite app_nil_r]. }
    destruct Hcase as [(_ & _ & H)|[(_ & Hne & H)|(_ & H)]];
      apply IH in H as [more ->]; rewrite <- ?app_assoc; eauto.
Qed.

(** The escape computed at the first event of a line is written when
    the memory is empty and the event is not behind the cursor. *)
Lemma sweep_first_written np lineno i pos rest (line : bytes) st out lineOffset
    st' out' lo' prev' :
  lineOffset <= Offset pos ->
  escapesOf out = [] ->
  sweep rangeOrder np lineno i (pos :: rest) line st out lineOffset ""
    = Ok (st', out', lo', prev') ->
  exists more,
    escapesOf out' = computeEscape rangeOrder np lineno i (applyEvent st pos) :: more.
Proof.
  intros Hle Hnone H. apply sweep_cons in H as (out1 & lo1 & Hout1 & Hcase).
  assert (escapesOf out1 = [] /\ lo1 = Offset pos) as [Hnone1 ->].
  { destruct Hout1 as [(_ & -> & chunk & _ & ->)|(? & -> & ->)].
    - rewrite escapesOf_app, Hnone. done.
    - split; [done|lia]. }
  pose proof (computeEscape_isSGR rangeOrder np lineno i (applyEvent st pos)) as Hsgr.
  destruct Hcase as [(_ & Heq & _)|[(_ & _ & H)|(Hne & _)]].
  - apply isSGR_nonempty in Hsgr. congruence.
  - apply sweep_grows in H as [more ->].
    exists (escapesOf more). by rewrite !escapesOf_app, Hnone1.
  - done.
Qed.

End SweepSteps.

(** ** Removing the escapes from the bytes *)





(** ** One line *)

Lemma wellFormed_capture patterns (line : bytes) n p g m :
  wellFormed patterns line = true ->
  patterns !! n = Some p -> g ∈ Groups p -> m ∈ RE p line ->
  wfCapture line g m = true.
Proof.
  unfold wellFormed. rewrite forallb_forall. intros H Hp Hg Hm.
  apply list_elem_of_lookup_2, list_elem_of_In in Hp.
  specialize (H p Hp). rewrite forallb_forall in H.
  apply list_elem_of_In in Hg. specialize (H g Hg).
  rewrite forallb_forall in H. apply H. by apply list_elem_of_In.
Qed.

(** On well-formed matches every event lies inside the line and carries
    the number of one of the patterns. *)
Lemma collect_events_in_range patterns (line : bytes) lm pos :
  wellFormed patterns line = true ->
  collect patterns line = Ok (lm, pos) ->
  Forall (fun ev => 0 <= Offset ev <= Z.of_nat (length line) /\
                    (Order ev < length patterns)%nat) pos.
Proof.
  intros Hwf H. apply Forall_forall. intros ev Hev.
  destruct (collect_provenance _ _ _ _ H ev Hev) as (n & p & g & m & s & e & Hp & Hg & Hm & Hs & He & Hne & Hcase).
  pose proof (wellFormed_capture _ _ _ _ _ _ Hwf Hp Hg Hm) as Hcap.
  unfold wfCapture in Hcap. rewrite Hs, He in Hcap.
  apply lookup_lt_Some in Hp.
  apply orb_true_iff in Hcap as [Hcap|Hcap]; [lia|].
  apply andb_true_iff in Hcap as [H1 H3]. apply andb_true_iff in H1 as [H1 H2].
  destruct Hcase as [->| ->]; simpl; split; lia.
Qed.

Lemma slice_to_end (line : bytes) lo :
  0 <= lo <= Z.of_nat (length line) ->
  slice line lo (Z.of_nat (length line)) = Ok (drop (Z.to_nat lo) line).
Proof.
  intros H. rewrite slice_Ok by lia. f_equal.
  apply take_ge. rewrite length_drop. lia.
Qed.

Section LineFacts.

Variable sortPositions : LinePositions -> LinePositions.
Variable rangeOrder : nat -> nat -> list nat.

(** [sort.Sort] rearranges its argument. *)
Hypothesis sort_perm : forall l, sortPositions l ≡ₚ l.

(** A line with events on well-formed matches: nothing panics, the text
    written is the line, the first computed escape is written, and the
    escapes written have the required form and no equal neighbours. *)
Lemma processLine_colorized patterns lineno st (line : bytes) lm pos :
  wellFormed patterns line = true ->
  collect patterns line = Ok (lm, pos) ->
  pos <> [] ->
  exists st' out first rest more,
    processLine sortPositions rangeOrder patterns lineno st line = Ok (st', out) /\
    textOf out = line /\
    memoryInv out (default "" (last (escapesOf out))) /\
    sortPositions pos = first :: rest /\
    escapesOf out =
      computeEscape rangeOrder (length patterns) lineno 0 (applyEvent st first) :: more.
Proof.
  intros Hwf Hcol Hne.
  pose proof (collect_events_in_range _ _ _ _ Hwf Hcol) as Hrange.
  rewrite <- (sort_perm pos) in Hrange.
  destruct (sortPositions pos) as [|first rest] eqn:Esort.
  { pose proof (sort_perm pos) as Hp. rewrite Esort in Hp.
    apply Permutation_nil_l in Hp. congruence. }
  unfold processLine. rewrite Hcol. unfold_bind.
  destruct pos as [|ev0 pos0]; [done|]. simpl length. cbn match.
  rewrite Esort.
  edestruct (sweep_text rangeOrder (first :: rest) (length patterns) lineno 0%nat
               line st [] 0 "") as (st' & out' & lo' & prev' & Hsw & Hlo' & Htext).
  { lia. }
  { eapply Forall_impl; [exact Hrange|]. simpl. lia. }
  rewrite Hsw. rewrite slice_to_end by lia.
  exists st', (out' ++ [Text (drop (Z.to_nat lo') line)]), first, rest.
  assert (memoryInv [] "") as Hmem.
  { split; [done|]. split; [apply Forall_nil_2|by right]. }
  apply (sweep_memory rangeOrder _ _ _ _ _ _ _ _ _ _ _ _ _ Hmem) in Hsw as Hmem'.
  clear Hmem. rename Hmem' into Hmem.
  apply Forall_cons in Hrange as [[Hfirst _] _].
  destruct (sweep_first_written rangeOrder (length patterns) lineno 0%nat first rest
              line st [] 0 st' out' lo' prev' (proj1 Hfirst) eq_refl Hsw) as [more Hesc].
  exists more. split; [done|]. split; [|split; [|split]].
  - rewrite textOf_app, Htext. simpl.
    rewrite app_nil_r, Z.sub_0_r. apply take_drop.
  - assert (escapesOf (out' ++ [Text (drop (Z.to_nat lo') line)]) = escapesOf out')
      as -> by (rewrite escapesOf_app; simpl; apply app_nil_r).
    apply memoryInv_text.
    destruct Hmem as (Hrep & Hform & Hlast). split; [done|]. split; [done|].
    left. destruct (last (escapesOf out')) eqn:Elast; [done|].
    apply last_None in Elast. rewrite Hesc in Elast. discriminate.
  - done.
  - rewrite escapesOf_app. simpl. by rewrite app_nil_r.
Qed.



End LineFacts.

(** ** Insertion sort is an instance of [sort.Sort] *)

Lemma insertPosition_perm x l : insertPosition x l ≡ₚ x :: l.
Proof.
  induction l as [|y l IH]; simpl; [done|].
  destruct (Less x y); [done|]. rewrite IH. apply Permutation_swap.
Qed.

Lemma insertionSort_perm l : insertionSort l ≡ₚ l.
Proof.
  unfold insertionSort.
  assert (forall acc, foldl (fun acc x => insertPosition x acc) acc l ≡ₚ acc ++ l)
    as H; [|apply H].
  induction l as [|x l IH]; intros acc; simpl; [by rewrite app_nil_r|].
  rewrite IH, insertPosition_perm. simpl. apply Permutation_middle.
Qed.

Lemma insertPosition_sorted x l :
  StronglySorted offsetLe l -> StronglySorted offsetLe (insertPosition x l).
Proof.
  induction l as [|y l IH]; simpl; intros Hs.
  - repeat constructor.
  - apply StronglySorted_inv in Hs as [Hl Hy].
    unfold Less. destruct (Z.ltb_spec (Offset x) (Offset y)) as [Hlt|Hge].
    + constructor; [by constructor|].
      constructor; [unfold offsetLe; lia|].
      eapply Forall_impl; [exact Hy|]. unfold offsetLe. intros; lia.
    + constructor; [by apply IH|].
      rewrite insertPosition_perm. by constructor.
Qed.

Lemma insertionSort_sorted l : StronglySorted offsetLe (insertionSort l).
Proof.
  unfold insertionSort.
  assert (forall acc, StronglySorted offsetLe acc ->
            StronglySorted offsetLe (foldl (fun acc x => insertPosition x acc) acc l))
    as H; [|apply H; constructor].
  induction l as [|x l IH]; intros acc Hacc; simpl; [done|].
  by apply IH, insertPosition_sorted.
Qed.



(** ** Lines without events *)

Lemma collectPatterns_no_match patterns :
  forall n (line : bytes) lm acc,
    Forall (fun p => RE p line = []) patterns ->
    collectPatterns n patterns line lm acc = Ok (lm, acc).
Proof.
  induction patterns as [|p rest IH]; intros n line lm acc Hall; simpl; [done|].
  apply Forall_cons in Hall as [-> Hrest]. by apply IH.
Qed.





(** C9 on the line [a WARN b] with the rule
    [/(?P<x>WARN)(?P<y>)/x:fg yellow,y:fg yellow]: the empty second
    group adds no event. *)
Lemma C9_empty_capture_no_event_witness :
  collect [Examples.emptyGroupRule "WARN" "fg yellow"] (Examples.B "a WARN b")
    = Ok (true,
          [mkLinePosition LinePositionStartKind 0 2 (Examples.colorize "fg yellow");
           mkLinePosition LinePositionEndKind 0 6 (Examples.colorize "fg yellow")]) /\
  [mkLinePosition LinePositionStartKind 0 2 (Examples.colorize "fg yellow");
   mkLinePosition LinePositionEndKind 0 6 (Examples.colorize "fg yellow")]
    = flat_map captureEvents
        (captures 0 [Examples.emptyGroupRule "WARN" "fg yellow"] (Examples.B "a WARN b")).
Proof.
  split; [vm_compute; reflexivity|].
  apply (C9_empty_capture_no_event [Examples.emptyGroupRule "WARN" "fg yellow"]
           (Examples.B "a WARN b") true).
  vm_compute; reflexivity.
Defined.

(** ** Priority among the patterns *)

Lemma highestActive_snoc a x :
  highestActive (a ++ [x]) = if decide (0 < x) then Some x else highestActive a.
Proof.
  unfold highestActive. rewrite filter_app, filter_cons, filter_nil.
  case_decide; [by rewrite last_snoc|by rewrite app_nil_r].
Qed.


Lemma highestActive_pos a v : highestActive a = Some v -> 0 < v.
Proof.
  unfold highestActive. intros H. apply last_Some_elem_of in H.
  by apply list_elem_of_filter in H as [H _].
Qed.

Lemma take_S_at (a : list Z) n :
  (n < length a)%nat -> take (S n) a = take n a ++ [at_ a n].
Proof.
  intros H. destruct (lookup_lt_is_Some_2 a n H) as [x Hx].
  unfold at_. rewrite Hx. simpl. by apply take_S_r.
Qed.

Lemma findLoop_spec n1 :
  forall fg bg f b,
    (n1 <= length fg)%nat -> (n1 <= length bg)%nat ->
    findLoop n1 fg bg f b =
      (if f =? 0 then default 0 (highestActive (take n1 fg)) else f,
       if b =? 0 then default 0 (highestActive (take n1 bg)) else b).
Proof.
  induction n1 as [|n IH]; intros fg bg f b Hfg Hbg.
  - simpl. destruct (Z.eqb_spec f 0), (Z.eqb_spec b 0); by subst.
  - cbn [findLoop].
    rewrite (take_S_at fg), (take_S_at bg), !highestActive_snoc by lia.
    generalize (at_ fg n) (at_ bg n). intros x y.
    destruct (Z.eqb_spec f 0) as [->|Hf], (Z.eqb_spec b 0) as [->|Hb];
      cbn [orb andb]; rewrite ?IH by lia;
      destruct (Z.ltb_spec 0 x), (Z.ltb_spec 0 y);
      repeat case_decide; try lia; cbn [default];
      repeat match goal with
             | |- context [Z.eqb ?z 0] => destruct (Z.eqb_spec z 0); try lia
             end; done.
Qed.

Lemma findColors_spec np fg bg :
  length fg = np -> length bg = np ->
  findColors np fg bg =
    (default ResetForeground (highestActive fg),
     default ResetBackground (highestActive bg)).
Proof.
  intros Hfg Hbg. unfold findColors.
  rewrite findLoop_spec by lia. simpl.
  rewrite !take_ge by lia.
  destruct (highestActive fg) as [f|] eqn:Ef, (highestActive bg) as [b|] eqn:Eb; simpl;
    try (apply highestActive_pos in Ef); try (apply highestActive_pos in Eb);
    repeat match goal with
           | |- context [?x =? 0] => destruct (Z.eqb_spec x 0); try lia
           end; done.
Qed.

Lemma applyEvent_length st ev :
  length (lineColorFG (applyEvent st ev)) = length (lineColorFG st) /\
  length (lineColorBG (applyEvent st ev)) = length (lineColorBG st).
Proof. unfold applyEvent. destruct (Kind ev); simpl; by rewrite !length_insert. Qed.

Lemma applyEvents_length evs :
  forall st,
    length (lineColorFG (applyEvents st evs)) = length (lineColorFG st) /\
    length (lineColorBG (applyEvents st evs)) = length (lineColorBG st).
Proof.
  induction evs as [|ev evs IH]; intros st; [done|].
  unfold applyEvents. simpl. fold (applyEvents (applyEvent st ev) evs).
  destruct (IH (applyEvent st ev)) as [-> ->]. apply applyEvent_length.
Qed.






(** ** The order of the events *)

Global Instance offsetLe_trans : Transitive offsetLe.
Proof. unfold offsetLe. intros a b c. lia. Qed.

Lemma filter_none {A} (P : A -> Prop) `{forall x, Decision (P x)} (l : list A) :
  Forall (fun x => ~ P x) l -> filter P l = [].
Proof.
  induction 1 as [|x l Hx Hl IH]; [done|].
  by rewrite filter_cons, decide_False.
Qed.

(** Insertion sort keeps the arrival order among equal offsets. *)
Lemma atOffset_insertPosition o x acc :
  StronglySorted offsetLe acc ->
  atOffset o (insertPosition x acc) =
    atOffset o acc ++ (if decide (Offset x = o) then [x] else []).
Proof.
  unfold atOffset. induction acc as [|y acc IH]; intros Hs; simpl.
  - rewrite filter_cons, filter_nil. by case_decide.
  - apply StronglySorted_inv in Hs as [Hacc Hy].
    unfold Less. destruct (Z.ltb_spec (Offset x) (Offset y)) as [Hlt|Hge].
    + rewrite (filter_cons _ x).
      destruct (decide (Offset x = o)) as [Hx|Hx]; [|by rewrite app_nil_r].
      rewrite (filter_none _ (y :: acc)); [done|].
      constructor; [lia|].
      eapply Forall_impl; [exact Hy|]. unfold offsetLe. intros; lia.
    + rewrite !(filter_cons _ y), IH by done.
      by destruct (decide (Offset y = o)).
Qed.

Lemma insertionSort_stable pos : keepsArrivalOrder pos (insertionSort pos).
Proof.
  intros o. unfold insertionSort.
  assert (forall acc, StronglySorted offsetLe acc ->
            atOffset o (foldl (fun acc x => insertPosition x acc) acc pos)
              = atOffset o acc ++ atOffset o pos) as H; [|apply H; constructor].
  induction pos as [|x pos IH]; intros acc Hacc; simpl.
  - unfold atOffset. by rewrite filter_nil, app_nil_r.
  - rewrite IH by (by apply insertPosition_sorted).
    rewrite atOffset_insertPosition by done.
    unfold atOffset at 4. rewrite filter_cons, <- app_assoc.
    by case_decide.
Qed.

(** [Swap] and the Shell pass rearrange. *)
Lemma insert_swap_head (l : LinePositions) j a y :
  l !! j = Some y -> y :: <[j := a]> l ≡ₚ a :: l.
Proof.
  revert j. induction l as [|b l IH]; intros [|j] Hj; simplify_eq/=.
  - apply Permutation_swap.
  - rewrite (Permutation_swap b y), (IH j Hj). apply Permutation_swap.
Qed.

Lemma Swap_perm l i j : Swap l i j ≡ₚ l.
Proof.
  unfold Swap.
  destruct (l !! i) as [x|] eqn:Ei; [|done].
  destruct (l !! j) as [y|] eqn:Ej; [|done].
  revert i j Ei Ej. induction l as [|a l IH]; intros [|i] [|j] Ei Ej; simplify_eq/=.
  - done.
  - by apply insert_swap_head.
  - by apply insert_swap_head.
  - by rewrite (IH i j).
Qed.

Lemma shellPass6_perm l : shellPass6 l ≡ₚ l.
Proof.
  unfold shellPass6. generalize (seq 6 (length l - 6)). intros idx.
  revert l. induction idx as [|i idx IH]; intros l; simpl; [done|].
  rewrite IH. repeat case_match; try done. apply Swap_perm.
Qed.

Lemma shellSort_perm l : shellSort l ≡ₚ l.
Proof. unfold shellSort. by rewrite insertionSort_perm, shellPass6_perm. Qed.

Lemma shellSort_sorted l : StronglySorted offsetLe (shellSort l).
Proof. apply insertionSort_sorted. Qed.

(** Below 7 elements the Shell pass has nothing to do. *)
Lemma shellSort_small l : (length l <= 6)%nat -> shellSort l = insertionSort l.
Proof.
  intros H. unfold shellSort, shellPass6.
  by replace (length l - 6)%nat with 0%nat by lia.
Qed.

Section OrderFacts.

Variable sortPositions : LinePositions -> LinePositions.
Variable rangeOrder : nat -> nat -> list nat.

(** The contract of [sort.Sort]: the result is a rearrangement of the
    argument in which no element is [Less] than an earlier one. *)
Hypothesis sort_perm : forall l, sortPositions l ≡ₚ l.
Hypothesis sort_sorted : forall l, StronglySorted offsetLe (sortPositions l).

(** On events in ascending order that lie ahead of the cursor and
    inside the line, the sweep applies every event. *)
Lemma sweep_applies_all positions :
  forall np lineno i (line : bytes) st out lineOffset prevEscape,
    0 <= lineOffset ->
    StronglySorted offsetLe positions ->
    Forall (fun ev => lineOffset <= Offset ev <= Z.of_nat (length line)) positions ->
    exists out' lineOffset' prevEscape',
      sweep rangeOrder np lineno i positions line st out lineOffset prevEscape
        = Ok (applyEvents st positions, out', lineOffset', prevEscape').
Proof.
  induction positions as [|pos rest IH];
    intros np lineno i line st out lineOffset prevEscape Hlo Hs Hall.
  - simpl. eauto.
  - apply StronglySorted_inv in Hs as [Hrest Hpos].
    apply Forall_cons in Hall as [Hin Hall].
    assert (Forall (fun ev => Offset pos <= Offset ev <= Z.of_nat (length line)) rest)
      as Hall'.
    { apply Forall_forall. intros ev Hev.
      rewrite Forall_forall in Hpos, Hall.
      specialize (Hpos ev Hev). specialize (Hall ev Hev).
      unfold offsetLe in Hpos. lia. }
    simpl. destruct (Z.ltb_spec lineOffset (Offset pos)) as [Hlt|Hge].
    + rewrite slice_Ok by lia. unfold_bind. simpl. rewrite Z.eqb_refl.
      destruct (String.eqb prevEscape _); apply IH; done || lia.
    + assert (lineOffset = Offset pos) as -> by lia.
      unfold_bind. simpl. rewrite Z.eqb_refl.
      destruct (String.eqb prevEscape _); apply IH; done || lia.
Qed.

Lemma NoDup_map_inj {A B} (f : A -> B) (l : list A) x y :
  NoDup (map f l) -> x ∈ l -> y ∈ l -> f x = f y -> x = y.
Proof.
  induction l as [|a l IH]; intros Hnd Hx Hy Hf; [inversion Hx|].
  simpl in Hnd. apply NoDup_cons in Hnd as [Ha Hnd].
  apply elem_of_cons in Hx as [->|Hx], Hy as [->|Hy]; auto.
  - exfalso. apply Ha. rewrite Hf. apply list_elem_of_fmap. eauto.
  - exfalso. apply Ha. rewrite <- Hf. apply list_elem_of_fmap. eauto.
Qed.

(** C3, as the code has it.  The events handed to the sweep are the
    collected events in ascending order of offset.  At every offset they
    are the events collected there, in an order that [sort.Sort] is free
    to choose; the sequence of offsets is the one a stable sort gives,
    and the whole list is when no two events share an offset.  The
    sweep applies every one of them. *)
Theorem C3_sorted_by_offset patterns lineno st (line : bytes) lm pos :
  wellFormed patterns line = true ->
  collect patterns line = Ok (lm, pos) ->
  sortPositions pos ≡ₚ pos /\
  StronglySorted offsetLe (sortPositions pos) /\
  (forall o, atOffset o (sortPositions pos) ≡ₚ atOffset o pos) /\
  map Offset (sortPositions pos) = map Offset (insertionSort pos) /\
  (NoDup (map Offset pos) -> sortPositions pos = insertionSort pos) /\
  (exists out lineOffset prevEscape,
     sweep rangeOrder (length patterns) lineno 0 (sortPositions pos) line st [] 0 ""
       = Ok (applyEvents st (sortPositions pos), out, lineOffset, prevEscape)).
Proof.
  intros Hwf Hcol.
  split; [apply sort_perm|]. split; [apply sort_sorted|].
  split; [intros o; unfold atOffset; by rewrite sort_perm|].
  split; [|split].
  - apply (StronglySorted_unique Z.le).
    + apply (StronglySorted_fmap _ offsetLe Z.le); [done|apply sort_sorted].
    + apply (StronglySorted_fmap _ offsetLe Z.le); [done|apply insertionSort_sorted].
    + change (Offset <$> sortPositions pos ≡ₚ Offset <$> insertionSort pos).
      by rewrite sort_perm, insertionSort_perm.
  - intros Hnd.
    apply (StronglySorted_unique_strong offsetLe);
      [|apply sort_sorted|apply insertionSort_sorted|by rewrite sort_perm, insertionSort_perm].
    intros x y Hx Hy Hxy Hyx. rewrite sort_perm in Hx. rewrite insertionSort_perm in Hy.
    apply (NoDup_map_inj Offset pos); [done..|]. unfold offsetLe in *. lia.
  - apply sweep_applies_all; [lia|apply sort_sorted|].
    pose proof (collect_events_in_range _ _ _ _ Hwf Hcol) as Hrange.
    rewrite <- (sort_perm pos) in Hrange.
    eapply Forall_impl; [exact Hrange|]. simpl. lia.
Qed.

End OrderFacts.

(** C3 with the Shell pass and insertion sort as [sort.Sort], on the
    line [aabbbccccddd] with the four rules. *)
Lemma C3_sorted_by_offset_witness :
  StronglySorted offsetLe
    (shellSort (flat_map captureEvents
       (captures 0 Examples.fourRules (Examples.B "aabbbccccddd")))) /\
  map Offset
    (shellSort (flat_map captureEvents
       (captures 0 Examples.fourRules (Examples.B "aabbbccccddd"))))
  = map Offset
      (insertionSort (flat_map captureEvents
         (captures 0 Examples.fourRules (Examples.B "aabbbccccddd")))).
Proof.
  destruct (C3_sorted_by_offset shellSort rangeInOrder shellSort_perm shellSort_sorted
              Examples.fourRules 0 (initialState Examples.fourRules)
              (Examples.B "aabbbccccddd") true
              (flat_map captureEvents
                 (captures 0 Examples.fourRules (Examples.B "aabbbccccddd"))))
    as (_ & Hsorted & _ & Hoffsets & _).
  - vm_compute; reflexivity.
  - vm_compute; reflexivity.
  - split; assumption.
Defined.

(** C3 as stated fails.  The Shell pass followed by insertion sort is
    what [sort.Sort] does on at most 12 elements in the Go releases up
    to 1.18; it meets the contract of [sort.Sort].  On the line
    [aabbbccccddd] with the four rules the start of [cccc] at offset 5
    is collected before the end of [bbb] at offset 5 and comes after it
    in the sorted list. *)
Lemma C3_counterexample :
  (forall l, shellSort l ≡ₚ l) /\
  (forall l, StronglySorted offsetLe (shellSort l)) /\
  exists pos,
    collect Examples.fourRules (Examples.B "aabbbccccddd") = Ok (true, pos) /\
    atOffset 5 pos =
      [mkLinePosition LinePositionStartKind 0 5 (Examples.colorize "fg red");
       mkLinePosition LinePositionEndKind 1 5 (Examples.colorize "fg green")] /\
    atOffset 5 (shellSort pos) =
      [mkLinePosition LinePositionEndKind 1 5 (Examples.colorize "fg green");
       mkLinePosition LinePositionStartKind 0 5 (Examples.colorize "fg red")] /\
    ~ keepsArrivalOrder pos (shellSort pos).
Proof.
  split; [apply shellSort_perm|]. split; [apply shellSort_sorted|].
  eexists. split; [vm_compute; reflexivity|].
  split; [vm_compute; reflexivity|]. split; [vm_compute; reflexivity|].
  intros H. specialize (H 5). vm_compute in H. discriminate.
Qed.

(** ** Only the read loop uses fuel *)

Lemma collectMatches_fuel res :
  forall n g acc, collectMatches n g res acc <> OutOfFuel.
Proof.
  induction res as [|m res IH]; intros n g acc; simpl; [done|].
  unfold index. unfold_bind.
  destruct (m !! _); [|done]. destruct (m !! _); [|done].
  destruct (_ =? _); apply IH.
Qed.

Lemma collectGroups_fuel groups :
  forall n res acc, collectGroups n groups res acc <> OutOfFuel.
Proof.
  induction groups as [|g groups IH]; intros n res acc; simpl; [done|].
  unfold_bind. pose proof (collectMatches_fuel res n g acc).
  destruct (collectMatches n g res acc); first [done | apply IH].
Qed.

Lemma collectPatterns_fuel patterns :
  forall n (line : bytes) lm acc, collectPatterns n patterns line lm acc <> OutOfFuel.
Proof.
  induction patterns as [|p rest IH]; intros n line lm acc; simpl; [done|].
  destruct (RE p line) as [|m res]; [apply IH|].
  unfold_bind. pose proof (collectGroups_fuel (Groups p) n (m :: res) acc).
  destruct (collectGroups _ _ _ _); first [done | apply IH].
Qed.

Lemma slice_fuel (line : bytes) lo hi : slice line lo hi <> OutOfFuel.
Proof. unfold slice. by destruct (_ && _). Qed.

Lemma sweep_fuel rangeOrder positions :
  forall np lineno i (line : bytes) st out lineOffset prevEscape,
    sweep rangeOrder np lineno i positions line st out lineOffset prevEscape <> OutOfFuel.
Proof.
  induction positions as [|pos rest IH];
    intros np lineno i line st out lineOffset prevEscape; simpl; [done|].
  destruct (lineOffset <? Offset pos).
  - pose proof (slice_fuel line lineOffset (Offset pos)).
    destruct (slice _ _ _); unfold_bind; simpl; try done.
    destruct (_ =? _); [destruct (String.eqb _ _)|]; apply IH.
  - unfold_bind. simpl.
    destruct (_ =? _); [destruct (String.eqb _ _)|]; apply IH.
Qed.

Lemma processLine_fuel sortPositions rangeOrder patterns lineno st (line : bytes) :
  processLine sortPositions rangeOrder patterns lineno st line <> OutOfFuel.
Proof.
  unfold processLine, collect.
  pose proof (collectPatterns_fuel patterns 0 line false []).
  destruct (collectPatterns _ _ _ _ _) as [[lm pos]| |]; unfold_bind; try done.
  destruct (0 <? length pos)%nat; [|by destruct lm].
  pose proof (sweep_fuel rangeOrder (sortPositions pos) (length patterns) lineno 0%nat
                line st [] 0 "").
  destruct (sweep _ _ _ _ _ _ _ _ _ _) as [[[[st' out] lo] prev]| |]; try done.
  pose proof (slice_fuel line lo (Z.of_nat (length line))).
  by destruct (slice _ _ _).
Qed.

(** ** The read loop *)

Lemma IndexByte_None (l : bytes) c : c ∉ l -> IndexByte l c = None.
Proof.
  induction l as [|x l IH]; intros Hc; simpl; [done|].
  apply not_elem_of_cons in Hc as [Hne Hc].
  destruct (Ascii.eqb_spec x c); [congruence|]. by rewrite IH.
Qed.

Lemma IndexByte_first (l rest : bytes) c :
  c ∉ l -> IndexByte (l ++ c :: rest) c = Some (length l).
Proof.
  induction l as [|x l IH]; intros Hc; simpl.
  - by rewrite Ascii.eqb_refl.
  - apply not_elem_of_cons in Hc as [Hne Hc].
    destruct (Ascii.eqb_spec x c); [congruence|]. by rewrite IH.
Qed.

(** A line that fits the buffer, newline included, is read whole. *)
Lemma ReadSlice_short bsize (l rest : bytes) err :
  newline ∉ l -> (length l < bsize)%nat ->
  ReadSlice (mkReader bsize (l ++ newline :: rest) err) newline
    = (l ++ [newline], None, mkReader bsize rest err).
Proof.
  intros Hnl Hlen. unfold ReadSlice. simpl.
  assert (take bsize (l ++ newline :: rest)
          = l ++ newline :: take (bsize - S (length l)) rest) as ->.
  { rewrite take_app_ge by lia.
    replace (bsize - length l)%nat with (S (bsize - S (length l))) by lia. done. }
  rewrite IndexByte_first by done.
  rewrite (take_app_ge l) by lia.
  replace (S (length l) - length l)%nat with 1%nat by lia.
  rewrite (drop_app_ge l) by lia.
  replace (S (length l) - length l)%nat with 1%nat by lia. done.
Qed.

(** Of a longer line the first [bsize] bytes are read, with
    [ErrBufferFull]. *)
Lemma ReadSlice_long bsize (l rest : bytes) err :
  newline ∉ l -> (bsize <= length l)%nat ->
  ReadSlice (mkReader bsize (l ++ newline :: rest) err) newline
    = (take bsize l, Some ErrBufferFull,
       mkReader bsize (drop bsize l ++ newline :: rest) err).
Proof.
  intros Hnl Hlen. unfold ReadSlice. simpl.
  rewrite take_app_le by lia.
  rewrite IndexByte_None.
  2:{ intros Hin. apply Hnl. by apply (subseteq_take bsize l). }
  rewrite length_app. simpl.
  destruct (Nat.leb_spec bsize (length l + S (length rest))); [|lia].
  by rewrite drop_app_le by lia.
Qed.

Section LoopFacts.

Variable sortPositions : LinePositions -> LinePositions.
Variable rangeOrder : nat -> nat -> list nat.

(** C6, as the code has it.  At the start of a line, a line that fits
    the read buffer with its newline is rendered whole; of a longer
    line the first buffer-full of bytes is rendered as a line of its
    own, and the loop goes on with the rest of the line. *)
Theorem C6_line_and_buffer fuel patterns bsize (l rest : bytes) err lineno st sink :
  newline ∉ l ->
  ((length l < bsize)%nat ->
   processLoop sortPositions rangeOrder (S fuel) patterns
     (mkReader bsize (l ++ newline :: rest) err) lineno st sink
   = '(st', out) ← processLine sortPositions rangeOrder patterns lineno st (l ++ [newline]);
     processLoop sortPositions rangeOrder fuel patterns
       (mkReader bsize rest err) (S lineno) st' (sink ++ out)) /\
  ((bsize <= length l)%nat ->
   processLoop sortPositions rangeOrder (S fuel) patterns
     (mkReader bsize (l ++ newline :: rest) err) lineno st sink
   = '(st', out) ← processLine sortPositions rangeOrder patterns lineno st (take bsize l);
     processLoop sortPositions rangeOrder fuel patterns
       (mkReader bsize (drop bsize l ++ newline :: rest) err) (S lineno) st' (sink ++ out)).
Proof.
  intros Hnl. split; intros Hlen; cbn [processLoop].
  - rewrite ReadSlice_short by done. cbn [clearBufferFull]. unfold_bind.
    destruct (processLine _ _ _ _ _ _) as [[st' out]| |]; done.
  - rewrite ReadSlice_long by done. cbn [clearBufferFull]. unfold_bind.
    destruct (processLine _ _ _ _ _ _) as [[st' out]| |]; done.
Qed.

(** The read loop renders the delivered lines in order. *)
Lemma processLoop_delivered fuel :
  forall patterns reader lineno st sink e out,
    processLoop sortPositions rangeOrder fuel patterns reader lineno st sink = Ok (e, out) ->
    exists st',
      renderLines sortPositions rangeOrder patterns lineno st sink
        (deliveredLoop fuel reader) = Ok (st', out).
Proof.
  induction fuel as [|fuel IH]; intros patterns reader lineno st sink e out; [done|].
  cbn [processLoop deliveredLoop].
  destruct (ReadSlice reader newline) as [[line readerErr] reader'].
  destruct (clearBufferFull readerErr) as [[| |msg]|]; cbn [renderLines]; unfold_bind.
  - destruct (processLine _ _ _ _ _ _) as [[st1 out1]| |]; try discriminate.
    intros [= <- <-]. eauto.
  - destruct (processLine _ _ _ _ _ _) as [[st1 out1]| |]; try discriminate.
    intros [= <- <-]. eauto.
  - intros [= <- <-]. eauto.
  - destruct (processLine _ _ _ _ _ _) as [[st1 out1]| |]; try discriminate.
    apply IH.
Qed.

(** The fuel of [processFile] is enough. *)
Lemma ReadSlice_progress reader line readerErr reader' :
  (0 < bufSize reader)%nat ->
  ReadSlice reader newline = (line, readerErr, reader') ->
  clearBufferFull readerErr = None ->
  (length (unread reader') < length (unread reader))%nat /\
  bufSize reader' = bufSize reader.
Proof.
  intros Hb. unfold ReadSlice.
  destruct (IndexByte _ _) as [i|] eqn:Ei.
  - intros [= <- <- <-] _. simpl. split; [|done].
    rewrite length_drop. destruct (unread reader); [|simpl; lia].
    rewrite take_nil in Ei. discriminate.
  - destruct (Nat.leb_spec (bufSize reader) (length (unread reader))).
    + intros [= <- <- <-] _. simpl. split; [|done]. rewrite length_drop. lia.
    + intros [= <- <- <-]. by destruct (srcFailure reader).
Qed.

Lemma processLoop_fuel fuel :
  forall patterns reader lineno st sink,
    (0 < bufSize reader)%nat ->
    (length (unread reader) < fuel)%nat ->
    processLoop sortPositions rangeOrder fuel patterns reader lineno st sink <> OutOfFuel.
Proof.
  induction fuel as [|fuel IH]; intros patterns reader lineno st sink Hb Hlen; [lia|].
  cbn [processLoop].
  destruct (ReadSlice reader newline) as [[line readerErr] reader'] eqn:Eread.
  pose proof (ReadSlice_progress _ _ _ _ Hb Eread) as Hprog.
  destruct (clearBufferFull readerErr) as [[| |msg]|]; unfold_bind; try done;
    destruct (processLine _ _ _ _ _ _) as [[st1 out1]| |] eqn:Eline; try done.
  - by apply processLine_fuel in Eline.
  - by apply processLine_fuel in Eline.
  - destruct (Hprog eq_refl) as [Hl Hb']. apply IH; lia.
  - by apply processLine_fuel in Eline.
Qed.

Lemma processFile_fuel bufferSize patterns rd :
  processFile sortPositions rangeOrder bufferSize patterns rd <> OutOfFuel.
Proof. apply processLoop_fuel; simpl; lia. Qed.

End LoopFacts.

(** C6 with a buffer of 16 bytes: the line [an ERROR] fits, the line
    [0123456789abcERROR] does not. *)
Lemma C6_line_and_buffer_witness :
  processLoop insertionSort rangeInOrder 31 [Examples.rule "ERROR" "fg red"]
    (mkReader 16 (Examples.B "an ERROR" ++ newline :: []) None) 0
    (initialState [Examples.rule "ERROR" "fg red"]) []
  = ('(st', out) ←
       processLine insertionSort rangeInOrder [Examples.rule "ERROR" "fg red"] 0
         (initialState [Examples.rule "ERROR" "fg red"]) (Examples.B "an ERROR" ++ [newline]);
     processLoop insertionSort rangeInOrder 30 [Examples.rule "ERROR" "fg red"]
       (mkReader 16 [] None) 1 st' ([] ++ out)) /\
  processLoop insertionSort rangeInOrder 31 [Examples.rule "ERROR" "fg red"]
    (mkReader 16 (Examples.B "0123456789abcERROR" ++ newline :: []) None) 0
    (initialState [Examples.rule "ERROR" "fg red"]) []
  = ('(st', out) ←
       processLine insertionSort rangeInOrder [Examples.rule "ERROR" "fg red"] 0
         (initialState [Examples.rule "ERROR" "fg red"])
         (take 16 (Examples.B "0123456789abcERROR"));
     processLoop insertionSort rangeInOrder 30 [Examples.rule "ERROR" "fg red"]
       (mkReader 16 (drop 16 (Examples.B "0123456789abcERROR") ++ newline :: []) None)
       1 st' ([] ++ out)).
Proof.
  split.
  - apply (C6_line_and_buffer insertionSort rangeInOrder 30 _ 16 (Examples.B "an ERROR")).
    + apply (bool_decide_unpack _). vm_compute. exact I.
    + vm_compute. lia.
  - apply (C6_line_and_buffer insertionSort rangeInOrder 30 _ 16
             (Examples.B "0123456789abcERROR")).
    + apply (bool_decide_unpack _). vm_compute. exact I.
    + vm_compute. lia.
Defined.

(** C6 as stated fails.  With a buffer of 16 bytes the line
    [0123456789abcERROR] reaches the match collection as
    [0123456789abcERR] and then [OR] with the newline.  The rule
    [/(?P<x>ERROR)/x:fg red] matches neither piece, so nothing is
    written, while the whole line would have been coloured. *)
Lemma C6_counterexample :
  delivered 16 (Examples.source (Examples.linesOf ["0123456789abcERROR"]))
    = [Examples.B "0123456789abcERR"; Examples.B "OR" ++ [newline]; []] /\
  ~ firstLineWhole 16 (Examples.source (Examples.linesOf ["0123456789abcERROR"])) /\
  processFile insertionSort rangeInOrder 16 [Examples.rule "ERROR" "fg red"]
    (Examples.source (Examples.linesOf ["0123456789abcERROR"])) = Ok (None, []) /\
  exists st out,
    processLine insertionSort rangeInOrder [Examples.rule "ERROR" "fg red"] 0
      (initialState [Examples.rule "ERROR" "fg red"])
      (Examples.B "0123456789abcERROR" ++ [newline]) = Ok (st, out) /\
    escapesOf out <> [].
Proof.
  split; [vm_compute; reflexivity|]. split; [|split].
  - intros H.
    specialize (H (Examples.B "0123456789abcERROR") [] eq_refl).
    assert (newline ∉ Examples.B "0123456789abcERROR") as Hnl.
    { apply (bool_decide_unpack _). vm_compute. exact I. }
    specialize (H Hnl). vm_compute in H. discriminate.
  - vm_compute; reflexivity.
  - eexists _, _. split; [vm_compute; reflexivity|]. vm_compute. discriminate.
Qed.

(** ** Input lines and the pieces of the read loop *)

Section LinesAndPieces.

Variable sortPositions : LinePositions -> LinePositions.
Variable rangeOrder : nat -> nat -> list nat.




(** [sort.Sort] rearranges its argument. *)
Hypothesis sort_perm : forall l, sortPositions l ≡ₚ l.


End LinesAndPieces.





(** ** The order of the walk over the properties *)

Lemma permute_nil {A} code : permute code (@nil A) = [].
Proof. by destruct code. Qed.

Lemma permute_short {A} code (l : list A) :
  (length l <= 1)%nat -> permute code l = l.
Proof.
  destruct l as [|x [|y l]]; simpl; intros Hlen; [apply permute_nil| |lia].
  destruct code as [|i code]; [done|].
  cbn [permute length]. rewrite Nat.mod_1_r. simpl. by rewrite permute_nil.
Qed.

Lemma map_to_list_short (m : gmap string Z) :
  (forall k1 k2, is_Some (m !! k1) -> is_Some (m !! k2) -> k1 = k2) ->
  (length (map_to_list m) <= 1)%nat.
Proof.
  intros Hone.
  pose proof (NoDup_fst_map_to_list m) as Hnd.
  destruct (map_to_list m) as [|[k1 v1] [|[k2 v2] l]] eqn:E; simpl; [lia..|].
  exfalso.
  assert (m !! k1 = Some v1) as H1.
  { apply elem_of_map_to_list. rewrite E. apply list_elem_of_here. }
  assert (m !! k2 = Some v2) as H2.
  { apply elem_of_map_to_list. rewrite E. apply list_elem_of_further, list_elem_of_here. }
  assert (k1 = k2) as -> by (apply Hone; eauto).
  simpl in Hnd. apply NoDup_cons in Hnd as [Hnd _]. apply Hnd, list_elem_of_here.
Qed.

Lemma bumpProperties_keys delta c m k :
  is_Some (bumpProperties delta c m !! k) ->
  is_Some (m !! k) \/ k ∈ propertiesOf c.
Proof.
  unfold bumpProperties, propertiesOf.
  generalize propertyKeys. intros ks. revert m.
  induction ks as [|k0 ks IH]; intros m; simpl; [auto|].
  intros H. apply IH in H as [H|H].
  - destruct (c !! k0) as [v|] eqn:Ec; [|auto].
    destruct (decide (k0 = k)) as [->|Hne].
    + right. rewrite filter_cons, decide_True by eauto. apply list_elem_of_here.
    + rewrite lookup_insert_ne in H by done. auto.
  - right. rewrite filter_cons. case_decide; [by apply list_elem_of_further|done].
Qed.

Section WalkOrder.

Variable sortPositions : LinePositions -> LinePositions.
Hypothesis sort_perm : forall l, sortPositions l ≡ₚ l.

Variables rangeOrder1 rangeOrder2 : nat -> nat -> list nat.
Variable patterns : list Pattern.
Hypothesis one_property : atMostOneProperty patterns = true.

Lemma used_one k1 k2 :
  k1 ∈ usedProperties patterns -> k2 ∈ usedProperties patterns -> k1 = k2.
Proof.
  unfold atMostOneProperty in one_property.
  rewrite <- !(elem_of_remove_dups (usedProperties patterns)).
  destruct (remove_dups (usedProperties patterns)) as [|k [|k' l]]; [|
    |discriminate].
  - intros H. inversion H.
  - intros H1 H2.
    apply list_elem_of_singleton in H1, H2. congruence.
Qed.

Lemma applyEvent_keysUsed st ev :
  keysUsed patterns st -> eventUsed patterns ev -> keysUsed patterns (applyEvent st ev).
Proof.
  intros Hst Hev k. unfold applyEvent.
  destruct (Kind ev); simpl; intros H; apply bumpProperties_keys in H as [H|H]; auto.
Qed.

Lemma computeEscape_order np lineno i st :
  keysUsed patterns st ->
  computeEscape rangeOrder1 np lineno i st = computeEscape rangeOrder2 np lineno i st.
Proof.
  intros Hst. unfold computeEscape.
  rewrite !permute_short; [done|..];
    apply map_to_list_short; intros k1 k2 H1 H2; apply used_one; auto.
Qed.

Lemma sweep_order positions :
  forall np lineno i (line : bytes) st out lineOffset prevEscape,
    keysUsed patterns st -> Forall (eventUsed patterns) positions ->
    sweep rangeOrder1 np lineno i positions line st out lineOffset prevEscape
    = sweep rangeOrder2 np lineno i positions line st out lineOffset prevEscape /\
    forall st' out' lo' prev',
      sweep rangeOrder2 np lineno i positions line st out lineOffset prevEscape
        = Ok (st', out', lo', prev') -> keysUsed patterns st'.
Proof.
  induction positions as [|pos rest IH];
    intros np lineno i line st out lineOffset prevEscape Hst Hall.
  - simpl. split; [done|]. by intros st' out' lo' prev' [= <- _ _ _].
  - apply Forall_cons in Hall as [Hpos Hrest].
    pose proof (applyEvent_keysUsed st pos Hst Hpos) as Hst1.
    simpl. rewrite (computeEscape_order np lineno i _ Hst1).
    destruct (lineOffset <? Offset pos).
    + destruct (slice line lineOffset (Offset pos)) as [chunk| |]; unfold_bind; simpl;
        [|done..].
      destruct (_ =? _); [destruct (String.eqb _ _)|]; by apply IH.
    + unfold_bind. simpl.
      destruct (_ =? _); [destruct (String.eqb _ _)|]; by apply IH.
Qed.

Lemma collect_eventUsed (line : bytes) lm pos :
  collect patterns line = Ok (lm, pos) -> Forall (eventUsed patterns) pos.
Proof.
  intros Hcol. apply Forall_forall. intros ev Hev k Hk.
  destruct (collect_provenance _ _ _ _ Hcol ev Hev)
    as (n & p & g & m & s & e & Hp & Hg & _ & _ & _ & _ & Hcase).
  assert (PosColorize ev = GroupColorize g) as Hc by (by destruct Hcase as [->| ->]).
  rewrite Hc in Hk. unfold usedProperties.
  apply elem_of_flat_map. exists p. split; [by eapply list_elem_of_lookup_2|].
  apply elem_of_flat_map. eauto.
Qed.

Lemma processLine_order lineno st (line : bytes) :
  keysUsed patterns st ->
  processLine sortPositions rangeOrder1 patterns lineno st line
  = processLine sortPositions rangeOrder2 patterns lineno st line /\
  forall st' out,
    processLine sortPositions rangeOrder2 patterns lineno st line = Ok (st', out) ->
    keysUsed patterns st'.
Proof.
  intros Hst. unfold processLine.
  destruct (collect patterns line) as [[lm pos]| |] eqn:Hcol; unfold_bind; [|done..].
  destruct (0 <? length pos)%nat.
  - pose proof (collect_eventUsed _ _ _ Hcol) as Hpos.
    rewrite <- (sort_perm pos) in Hpos.
    destruct (sweep_order (sortPositions pos) (length patterns) lineno 0%nat line st
                [] 0 "" Hst Hpos) as [-> Hkeys].
    split; [done|].
    destruct (sweep rangeOrder2 _ _ _ _ _ _ _ _ _) as [[[[st1 out1] lo1] prev1]| |];
      [|done..].
    destruct (slice _ _ _); [|done..].
    intros st' out [= <- _]. by eapply Hkeys.
  - split; [done|]. destruct lm; by intros st' out [= <- _].
Qed.

Lemma processLoop_order fuel :
  forall reader lineno st sink,
    keysUsed patterns st ->
    processLoop sortPositions rangeOrder1 fuel patterns reader lineno st sink
    = processLoop sortPositions rangeOrder2 fuel patterns reader lineno st sink.
Proof.
  induction fuel as [|fuel IH]; intros reader lineno st sink Hst; [done|].
  cbn [processLoop].
  destruct (ReadSlice reader newline) as [[line readerErr] reader'].
  destruct (processLine_order lineno st line Hst) as [-> Hkeys].
  destruct (clearBufferFull readerErr) as [[| |msg]|]; try done.
  unfold_bind.
  destruct (processLine sortPositions rangeOrder2 patterns lineno st line)
    as [[st1 out1]| |]; [|done..].
  apply IH. by eapply Hkeys.
Qed.

(** C10, as the code has it.  When the rules use at most one of the
    four properties, what [processFile] returns and writes does not
    depend on the order in which the property counters are walked: it
    is fixed by the patterns, the buffer size and the input. *)
Theorem C10_output_fixed bufferSize rd :
  processFile sortPositions rangeOrder1 bufferSize patterns rd
  = processFile sortPositions rangeOrder2 bufferSize patterns rd.
Proof.
  unfold processFile. apply processLoop_order.
  intros k. unfold initialState. simpl. rewrite lookup_empty.
  intros [v Hv]. discriminate.
Qed.

End WalkOrder.

(** C10 with the rule [/(?P<x>ERROR)/x:fg red bold] and two orders of
    the walk. *)
Lemma C10_output_fixed_witness :
  processFile insertionSort rangeInOrder 4096 [Examples.rule "ERROR" "fg red bold"]
    (Examples.source (Examples.linesOf ["an ERROR occurred"; "fine"; "ERROR ERROR"]))
  = processFile insertionSort rangeRotated 4096 [Examples.rule "ERROR" "fg red bold"]
      (Examples.source (Examples.linesOf ["an ERROR occurred"; "fine"; "ERROR ERROR"])).
Proof.
  apply (C10_output_fixed insertionSort insertionSort_perm rangeInOrder rangeRotated
           [Examples.rule "ERROR" "fg red bold"]).
  vm_compute; reflexivity.
Defined.

(** C10 as stated fails.  The rule [/(?P<x>a)/x:bold underline] puts
    two keys into the property counters.  Walked in one order the first
    escape of the line [a] carries the codes 1;4, walked in the other
    order 4;1: the bytes written differ between two runs on the same
    patterns and input. *)
Lemma C10_counterexample :
  exists out1 out2,
    processFile insertionSort rangeInOrder 4096 [Examples.rule "a" "bold underline"]
      (Examples.source (Examples.linesOf ["a"])) = Ok (None, out1) /\
    processFile insertionSort rangeRotated 4096 [Examples.rule "a" "bold underline"]
      (Examples.source (Examples.linesOf ["a"])) = Ok (None, out2) /\
    head (escapesOf out1) <> head (escapesOf out2) /\
    sinkBytes out1 <> sinkBytes out2.
Proof.
  eexists _, _. split; [vm_compute; reflexivity|]. split; [vm_compute; reflexivity|].
  split; vm_compute; discriminate.
Qed.

(** * Further properties *)

(** ** [ParseColorize] *)

Section ParseMore.

Variable ToLower : string -> string.

Lemma recognized_continue word rest c colorAddon colorType :
  recognized word = true \/ String.length word = 0%nat ->
  exists c' colorAddon' colorType',
    (forall w, ToLower w = word ->
       parseWords ToLower (w :: rest) c colorAddon colorType
       = parseWords ToLower rest c' colorAddon' colorType').
Proof.
  intros Hrec.
  destruct (isChannelBG word) eqn:Ebg.
  { eexists _, _, _. intros w Hw. simpl. rewrite Hw, Ebg. reflexivity. }
  destruct (isChannelFG word) eqn:Efg.
  { eexists _, _, _. intros w Hw. simpl. rewrite Hw, Ebg, Efg. reflexivity. }
  destruct (String.eqb word "bright") eqn:Ebr.
  { eexists _, _, _. intros w Hw. simpl. rewrite Hw, Ebg, Efg, Ebr. reflexivity. }
  destruct (AnsiColors word) as [v|] eqn:Ecol.
  { eexists _, _, _. intros w Hw. simpl. rewrite Hw, Ebg, Efg, Ebr, Ecol. reflexivity. }
  destruct (AnsiProperties word) as [v|] eqn:Eprop.
  { eexists _, _, _. intros w Hw. simpl. rewrite Hw, Ebg, Efg, Ebr, Ecol, Eprop. reflexivity. }
  assert (String.length word = 0%nat) as Hlen.
  { destruct Hrec as [Hrec|Hlen]; [|done].
    unfold recognized in Hrec. rewrite Ebg, Efg, Ebr in Hrec. simpl in Hrec.
    apply orb_true_iff in Hrec as [Hrec|Hrec]; apply bool_decide_eq_true in Hrec;
      destruct Hrec as [? Hrec]; congruence. }
  exists c, colorAddon, colorType. intros w Hw. simpl.
  rewrite Hw, Ebg, Efg, Ebr, Ecol, Eprop, Hlen. reflexivity.
Qed.

Lemma parseWords_known words :
  forall c colorAddon colorType,
    (forall tok, tok ∈ words -> ~ unknownToken ToLower tok) ->
    exists c', parseWords ToLower words c colorAddon colorType = Ok c'.
Proof.
  induction words as [|word rest IH]; intros c colorAddon colorType Hall; [simpl; eauto|].
  assert (recognized (ToLower word) = true \/ String.length (ToLower word) = 0%nat) as Hw.
  { assert (~ unknownToken ToLower word) as Hn by (apply Hall, list_elem_of_here).
    unfold unknownToken in Hn.
    destruct (recognized (ToLower word)); [by left|right].
    destruct (String.length (ToLower word)); [done|]. exfalso. apply Hn. split; [done|lia]. }
  destruct (recognized_continue _ rest c colorAddon colorType Hw) as (c1 & a1 & t1 & Heq).
  rewrite (Heq word eq_refl). apply IH.
  intros tok Htok. by apply Hall, list_elem_of_further.
Qed.

(** X1.  [ParseColorize] returns a [Colorize] exactly when no token of
    the specification is unknown. *)
Theorem ParseColorize_Ok_iff (spec : string) :
  (exists c, ParseColorize ToLower spec = Ok c) <->
  (forall tok, tok ∈ Split spec -> ~ unknownToken ToLower tok).
Proof.
  split.
  - intros [c Hc] tok Htok Hun.
    destruct (parseWords_unknown ToLower (Split spec) ∅ 0 "foreground") as [msg Hmsg];
      [eauto|].
    unfold ParseColorize in Hc. congruence.
  - intros Hall. by apply parseWords_known.
Qed.

Lemma AnsiProperties_channel k pv :
  AnsiProperties k = Some pv -> k <> ForegroundColor /\ k <> BackgroundColor.
Proof.
  intros H. apply AnsiProperties_key in H.
  split; intros ->; vm_compute in H;
    repeat (apply elem_of_cons in H as [H|H]; [discriminate|]); inversion H.
Qed.

Lemma keysInv_channel c colorType k v :
  keysInv c colorType -> (k = ForegroundColor \/ k = BackgroundColor) ->
  forall colorType',
    (colorType' = ForegroundColor \/ colorType' = BackgroundColor) ->
    keysInv (<[k := v]> c) colorType'.
Proof.
  intros [_ Hc] Hk colorType' Ht. split; [done|].
  intros k' v' Hlook. destruct (decide (k = k')) as [<-|Hne].
  - split.
    + unfold colorizeKeys. destruct Hk as [->| ->];
        [apply list_elem_of_here|apply list_elem_of_further, list_elem_of_here].
    + intros pv Hp. apply AnsiProperties_channel in Hp as [? ?]. by destruct Hk.
  - rewrite lookup_insert_ne in Hlook by done. eauto.
Qed.

Lemma parseWords_keys words :
  forall c colorAddon colorType c',
    keysInv c colorType ->
    parseWords ToLower words c colorAddon colorType = Ok c' ->
    forall k v, c' !! k = Some v ->
      k ∈ colorizeKeys /\ (forall pv, AnsiProperties k = Some pv -> v = pv).
Proof.
  induction words as [|word rest IH]; intros c colorAddon colorType c' Hinv; simpl.
  - intros [= <-]. apply Hinv.
  - destruct (isChannelBG (ToLower word)).
    { apply IH. eapply keysInv_channel; eauto. }
    destruct (isChannelFG (ToLower word)).
    { apply IH. eapply keysInv_channel; eauto. }
    destruct (String.eqb (ToLower word) "bright"); [by apply IH|].
    destruct (AnsiColors (ToLower word)) as [v0|].
    { apply IH. eapply keysInv_channel; [exact Hinv|apply Hinv..]. }
    destruct (AnsiProperties (ToLower word)) as [v0|] eqn:Eprop.
    { apply IH. destruct Hinv as [Ht Hc]. split; [done|].
      intros k v Hlook. destruct (decide (ToLower word = k)) as [<-|Hne].
      - rewrite lookup_insert_eq in Hlook. injection Hlook as <-. split.
        + unfold colorizeKeys. do 2 apply list_elem_of_further.
          by eapply AnsiProperties_key.
        + intros pv Hp. congruence.
      - rewrite lookup_insert_ne in Hlook by done. eauto. }
    destruct (0 <? String.length (ToLower word))%nat; [discriminate|]. by apply IH.
Qed.

(** X2.  A [Colorize] returned by [ParseColorize] has no key besides
    foreground, background and the four properties, and a property key
    holds the code of its property in [AnsiProperties]. *)
Theorem ParseColorize_keys (spec : string) (c : Colorize) :
  ParseColorize ToLower spec = Ok c ->
  forall k v, c !! k = Some v ->
    k ∈ colorizeKeys /\ (forall pv, AnsiProperties k = Some pv -> v = pv).
Proof.
  unfold ParseColorize. apply parseWords_keys.
  split; [by left|]. intros k v. rewrite lookup_empty. discriminate.
Qed.

(** Empty pieces are passed over when the lowering keeps the empty word
    empty. *)
Hypothesis ToLower_empty : ToLower "" = "".

Lemma parseWords_tokens words :
  forall c colorAddon colorType,
    parseWords ToLower (filter (fun w => w <> "") words) c colorAddon colorType
    = parseWords ToLower words c colorAddon colorType.
Proof.
  induction words as [|word rest IH]; intros c colorAddon colorType; [done|].
  rewrite filter_cons. destruct (decide (word <> "")) as [Hne|Heq].
  - simpl. repeat case_match; auto.
  - assert (word = "") as -> by (by destruct (decide (word = ""))).
    rewrite IH. simpl. rewrite ToLower_empty. reflexivity.
Qed.

(** X3.  Blanks at the ends of a specification and runs of several
    blanks do not matter: two specifications with the same tokens give
    the same result. *)
Theorem ParseColorize_blanks (spec1 spec2 : string) :
  tokens spec1 = tokens spec2 ->
  ParseColorize ToLower spec1 = ParseColorize ToLower spec2.
Proof.
  unfold ParseColorize, tokens. intros H.
  rewrite <- (parseWords_tokens (Split spec1)), <- (parseWords_tokens (Split spec2)).
  by rewrite H.
Qed.

End ParseMore.

(** X2 and X3 at the specifications [fg red bold] with and without
    extra blanks. *)
Lemma ParseColorize_keys_witness :
  "bold" ∈ colorizeKeys /\ (forall pv, AnsiProperties "bold" = Some pv -> 1 = pv).
Proof.
  apply (ParseColorize_keys asciiToLower "fg red bold" (Examples.colorize "fg red bold")).
  - vm_compute; reflexivity.
  - vm_compute; reflexivity.
Defined.

Lemma ParseColorize_blanks_witness :
  ParseColorize asciiToLower "  fg   red bold " = ParseColorize asciiToLower "fg red bold".
Proof.
  apply (ParseColorize_blanks asciiToLower eq_refl).
  vm_compute; reflexivity.
Defined.

(** ** The property counters *)

Lemma propertyKeys_NoDup : NoDup propertyKeys.
Proof. apply (bool_decide_unpack _). vm_compute. exact I. Qed.

Lemma get_insert (m : gmap string Z) k k' v :
  get (<[k := v]> m) k' = if decide (k = k') then v else get m k'.
Proof.
  unfold get. case_decide as Hk; [subst; by rewrite lookup_insert_eq|].
  by rewrite lookup_insert_ne.
Qed.

Lemma bumpProperties_get delta c m k :
  get (bumpProperties delta c m) k =
    get m k + (if bool_decide (k ∈ propertyKeys /\ is_Some (c !! k)) then delta else 0).
Proof.
  unfold bumpProperties. pose proof propertyKeys_NoDup as Hnd. revert Hnd.
  generalize propertyKeys. intros ks. revert m.
  induction ks as [|k0 ks IH]; intros m Hnd; cbn [foldl].
  - rewrite bool_decide_eq_false_2; [lia|]. intros [H _]. inversion H.
  - apply NoDup_cons in Hnd as [Hk0 Hnd]. rewrite IH by done.
    destruct (decide (k = k0)) as [->|Hne].
    + rewrite (bool_decide_eq_false_2 (k0 ∈ ks /\ _)) by (intros [? _]; done).
      destruct (c !! k0) as [v|] eqn:Ec.
      * rewrite get_insert, decide_True by done.
        rewrite bool_decide_eq_true_2; [lia|]. split; [apply list_elem_of_here|eauto].
      * rewrite bool_decide_eq_false_2; [lia|]. intros [_ [? ?]]. congruence.
    + assert (get (match c !! k0 with
                   | Some _ => <[k0 := get m k0 + delta]> m
                   | None => m
                   end) k = get m k) as ->.
      { destruct (c !! k0); [|done]. rewrite get_insert. by rewrite decide_False. }
      assert (bool_decide (k ∈ ks /\ is_Some (c !! k))
              = bool_decide (k ∈ k0 :: ks /\ is_Some (c !! k))) as ->; [|done].
      apply bool_decide_ext.
      split; intros [Hin Hsome]; (split; [|done]).
      * by apply list_elem_of_further.
      * apply elem_of_cons in Hin as [?|?]; done.
Qed.

Lemma applyEvent_get st ev k :
  get (lineProperties (applyEvent st ev)) k =
    get (lineProperties st) k + netCount k [ev].
Proof.
  unfold applyEvent, netCount, carries. simpl.
  destruct (Kind ev); simpl; rewrite bumpProperties_get; case_bool_decide; lia.
Qed.

Lemma netCount_app k l1 l2 : netCount k (l1 ++ l2) = netCount k l1 + netCount k l2.
Proof.
  unfold netCount. induction l1 as [|ev l1 IH]; simpl; [lia|]. rewrite IH. lia.
Qed.

Lemma netCount_cons k ev evs : netCount k (ev :: evs) = netCount k [ev] + netCount k evs.
Proof. unfold netCount. simpl. lia. Qed.

Lemma applyEvents_get evs :
  forall st k,
    get (lineProperties (applyEvents st evs)) k =
      get (lineProperties st) k + netCount k evs.
Proof.
  induction evs as [|ev evs IH]; intros st k.
  - unfold netCount. simpl. lia.
  - unfold applyEvents. cbn [foldl]. fold (applyEvents (applyEvent st ev) evs).
    rewrite IH, applyEvent_get, (netCount_cons k ev evs). lia.
Qed.

Lemma applyEvents_keys evs :
  forall st k,
    is_Some (lineProperties (applyEvents st evs) !! k) ->
    is_Some (lineProperties st !! k) \/ k ∈ propertyKeys.
Proof.
  induction evs as [|ev evs IH]; intros st k; [auto|].
  unfold applyEvents. simpl. fold (applyEvents (applyEvent st ev) evs).
  intros H. apply IH in H as [H|H]; [|auto].
  unfold applyEvent in H.
  destruct (Kind ev); simpl in H; apply bumpProperties_keys in H as [H|H]; auto;
    right; unfold propertiesOf in H; by apply list_elem_of_filter in H as [_ H].
Qed.

(** X4.  After any events the counter of a property is its old value
    plus the starts carrying the property minus the ends carrying it,
    whatever the order of the events; and no key besides the four
    property names is added to the counters. *)
Theorem property_counters (st : State) (evs : LinePositions) (k : string) :
  get (lineProperties (applyEvents st evs)) k
    = get (lineProperties st) k + netCount k evs /\
  (forall evs', evs' ≡ₚ evs ->
     get (lineProperties (applyEvents st evs')) k
       = get (lineProperties (applyEvents st evs)) k) /\
  (is_Some (lineProperties (applyEvents st evs) !! k) ->
   is_Some (lineProperties st !! k) \/ k ∈ propertyKeys).
Proof.
  split; [apply applyEvents_get|]. split; [|apply applyEvents_keys].
  intros evs' Hperm. rewrite !applyEvents_get. f_equal.
  unfold netCount. induction Hperm; simpl; lia.
Qed.

(** ** A line leaves no colour behind *)

Lemma netCount_perm k l1 l2 : l1 ≡ₚ l2 -> netCount k l1 = netCount k l2.
Proof. unfold netCount. induction 1; simpl; lia. Qed.

Lemma netCount_captures k caps : netCount k (flat_map captureEvents caps) = 0.
Proof.
  induction caps as [|[[[n g] s] e] caps IH]; [done|].
  simpl flat_map. rewrite netCount_app, IH. unfold captureEvents.
  destruct (s =? e); [done|].
  unfold netCount, carries, startOf, endOf. simpl. case_bool_decide; lia.
Qed.

Lemma slots_closed (proj : State -> list Z) (val : LinePosition -> Z) :
  (forall st ev, proj (applyEvent st ev) = <[Order ev := val ev]> (proj st)) ->
  (forall ev, Kind ev = LinePositionEndKind -> val ev = 0) ->
  forall n l st,
    startsClosed n l ->
    (forall v, proj st !! n = Some v -> v = 0) ->
    forall v, proj (applyEvents st l) !! n = Some v -> v = 0.
Proof.
  intros Hproj Hval n l. induction l as [|ev l IH] using rev_ind; intros st Hclosed Hst v.
  - simpl. apply Hst.
  - unfold applyEvents. rewrite foldl_app. simpl. fold (applyEvents st l).
    rewrite Hproj. destruct (decide (Order ev = n)) as [Hn|Hn].
    + destruct (Kind ev) eqn:Ek.
      * destruct (Hclosed l ev [] eq_refl Ek Hn) as (y & Hy & _). inversion Hy.
      * rewrite Hval by done. subst n. intros Hlook.
        pose proof (lookup_lt_Some _ _ _ Hlook) as Hlt. rewrite length_insert in Hlt.
        rewrite list_lookup_insert_eq in Hlook by done. congruence.
    + rewrite list_lookup_insert_ne by done. apply IH; [|done].
      intros l1 x l2 Hl Hk Ho.
      destruct (Hclosed l1 x (l2 ++ [ev])) as (y & Hy & Hky & Hoy); [|done..|].
      { rewrite Hl. by rewrite <- app_assoc. }
      exists y. split; [|done].
      apply elem_of_app in Hy as [Hy|Hy]; [done|].
      apply list_elem_of_singleton in Hy. subst y. congruence.
Qed.

Lemma zero_slots (a : list Z) np :
  length a = np -> (forall n v, a !! n = Some v -> v = 0) -> a = replicate np 0.
Proof.
  intros Hlen Hz. apply list_eq. intros n.
  destruct (decide (n < np)%nat) as [Hlt|Hge].
  - rewrite lookup_replicate_2 by done.
    destruct (lookup_lt_is_Some_2 a n) as [v Hv]; [lia|]. rewrite Hv. f_equal. eauto.
  - rewrite !lookup_ge_None_2; [done|rewrite length_replicate; lia|lia].
Qed.

Lemma replicate_zero_lookup np n v : replicate np 0 !! n = Some v -> v = 0.
Proof. intros H. by apply lookup_replicate in H as [-> _]. Qed.

Lemma findColors_rest np : findColors np (replicate np 0) (replicate np 0) = (39, 49).
Proof.
  rewrite findColors_spec by apply length_replicate.
  assert (highestActive (replicate np 0) = None) as ->; [|done].
  unfold highestActive. destruct (last _) as [v|] eqn:E; [|done].
  apply last_Some_elem_of, list_elem_of_filter in E as [E1 E2].
  apply elem_of_replicate in E2 as [-> _]. lia.
Qed.

(** On well-formed matches the start of a capture has its end in the
    list, at a greater offset. *)
Lemma collect_start_has_end patterns (line : bytes) lm pos x :
  wellFormed patterns line = true ->
  collect patterns line = Ok (lm, pos) ->
  x ∈ pos -> Kind x = LinePositionStartKind ->
  exists y, y ∈ pos /\ Kind y = LinePositionEndKind /\ Order y = Order x /\
            Offset x < Offset y.
Proof.
  intros Hwf Hcol Hx Hk.
  pose proof (collect_spec _ _ _ _ Hcol) as [Hpos _].
  rewrite Hpos in Hx.
  apply elem_of_flat_map in Hx as ([[[n g] s] e] & Hcap & Hx).
  pose proof (captureEvents_elem _ _ Hx) as [Hne Hcase]. simpl in Hne.
  destruct Hcase as [->| ->]; [|discriminate].
  apply (collectPatterns_lookup _ _ _ _ _ _ _ Hcol) in Hcap as Hfrom.
  destruct Hfrom as (p & m & _ & Hp & Hg & Hm & Hs & He).
  pose proof (wellFormed_capture _ _ _ _ _ _ Hwf Hp Hg Hm) as Hwfc.
  unfold wfCapture in Hwfc. rewrite Hs, He in Hwfc.
  exists (endOf (n, g, s, e)). split; [|split; [done|split; [done|]]].
  - rewrite Hpos. apply elem_of_flat_map. exists (n, g, s, e). split; [done|].
    unfold captureEvents. destruct (Z.eqb_spec s e); [done|].
    apply list_elem_of_further, list_elem_of_here.
  - simpl. apply orb_true_iff in Hwfc as [Hwfc|Hwfc]; [lia|].
    apply andb_true_iff in Hwfc as [H1 _]. apply andb_true_iff in H1 as [_ H2]. lia.
Qed.

Lemma sorted_startsClosed patterns (line : bytes) lm pos sorted n :
  wellFormed patterns line = true ->
  collect patterns line = Ok (lm, pos) ->
  sorted ≡ₚ pos -> StronglySorted offsetLe sorted ->
  startsClosed n sorted.
Proof.
  intros Hwf Hcol Hperm Hsorted l1 x l2 Hl Hk Ho.
  assert (x ∈ pos) as Hx.
  { rewrite <- Hperm, Hl. apply elem_of_app. right. apply list_elem_of_here. }
  destruct (collect_start_has_end _ _ _ _ _ Hwf Hcol Hx Hk) as (y & Hy & Hky & Hoy & Hlt).
  exists y. split; [|split; [done|congruence]].
  rewrite <- Hperm, Hl in Hy.
  apply elem_of_app in Hy as [Hy|Hy].
  - rewrite Hl in Hsorted.
    pose proof (StronglySorted_app_1_elem_of offsetLe l1 (x :: l2) y x Hsorted Hy
                  ltac:(apply list_elem_of_here)) as Hle.
    unfold offsetLe in Hle. lia.
  - apply elem_of_cons in Hy as [->|Hy]; [congruence|done].
Qed.

Section SortedSweep.

Variable rangeOrder : nat -> nat -> list nat.

(** On events in ascending order ahead of the cursor the sweep applies
    every event and ends with the escape computed at the last one in
    its memory. *)
Lemma sweep_sorted positions :
  forall np lineno i (line : bytes) st out lineOffset prevEscape,
    0 <= lineOffset ->
    StronglySorted offsetLe positions ->
    Forall (fun ev => lineOffset <= Offset ev <= Z.of_nat (length line)) positions ->
    exists out' lineOffset',
      sweep rangeOrder np lineno i positions line st out lineOffset prevEscape
        = Ok (applyEvents st positions, out', lineOffset',
              match positions with
              | [] => prevEscape
              | _ => computeEscape rangeOrder np lineno (i + length positions - 1)
                       (applyEvents st positions)
              end).
Proof.
  induction positions as [|pos rest IH];
    intros np lineno i line st out lineOffset prevEscape Hlo Hs Hall.
  - simpl. eauto.
  - apply StronglySorted_inv in Hs as [Hrest Hpos].
    apply Forall_cons in Hall as [Hin Hall]. simpl in Hin.
    assert (Forall (fun ev => Offset pos <= Offset ev <= Z.of_nat (length line)) rest)
      as Hall'.
    { apply Forall_forall. intros ev Hev.
      rewrite Forall_forall in Hpos, Hall.
      specialize (Hpos ev Hev). specialize (Hall ev Hev).
      unfold offsetLe in Hpos. lia. }
    assert (forall out1 prev1,
              (prev1 = computeEscape rangeOrder np lineno i (applyEvent st pos)) ->
              exists out' lineOffset',
                sweep rangeOrder np lineno (S i) rest line (applyEvent st pos) out1
                  (Offset pos) prev1
                = Ok (applyEvents st (pos :: rest), out', lineOffset',
                      computeEscape rangeOrder np lineno
                        (i + length (pos :: rest) - 1) (applyEvents st (pos :: rest))))
      as Hnext.
    { intros out1 prev1 Hprev.
      destruct (IH np lineno (S i) line (applyEvent st pos) out1 (Offset pos) prev1)
        as (out' & lo' & Hsw); [lia|done|done|].
      exists out', lo'. rewrite Hsw.
      change (applyEvents st (pos :: rest)) with (applyEvents (applyEvent st pos) rest).
      destruct rest as [|ev rest'].
      - replace (i + length [pos] - 1)%nat with i by (simpl; lia).
        by rewrite Hprev.
      - replace (S i + length (ev :: rest') - 1)%nat
          with (i + length (pos :: ev :: rest') - 1)%nat by (simpl; lia).
        done. }
    cbn [sweep]. destruct (Z.ltb_spec lineOffset (Offset pos)) as [Hlt|Hge].
    + rewrite slice_Ok by lia. unfold_bind. cbn. rewrite Z.eqb_refl.
      destruct (String.eqb_spec prevEscape
                  (computeEscape rangeOrder np lineno i (applyEvent st pos)));
        by apply Hnext.
    + assert (lineOffset = Offset pos) as -> by lia.
      unfold_bind. cbn. rewrite Z.eqb_refl.
      destruct (String.eqb_spec prevEscape
                  (computeEscape rangeOrder np lineno i (applyEvent st pos)));
        by apply Hnext.
Qed.

End SortedSweep.

Section RestFacts.

Variable sortPositions : LinePositions -> LinePositions.
Variable rangeOrder : nat -> nat -> list nat.
Hypothesis sort_perm : forall l, sortPositions l ≡ₚ l.
Hypothesis sort_sorted : forall l, StronglySorted offsetLe (sortPositions l).

(** X5.  A line leaves no colour behind.  When no colour is in force
    before a line (well-formed matches, [sort.Sort] as documented), none
    is in force after it and every property counter has its old value;
    and when the line has events, the last escape written on it is the
    one computed in that final state, with foreground 39 and background
    49. *)
Theorem line_leaves_no_colour patterns lineno st (line : bytes) lm pos :
  wellFormed patterns line = true ->
  collect patterns line = Ok (lm, pos) ->
  colorsAtRest (length patterns) st ->
  exists st' out,
    processLine sortPositions rangeOrder patterns lineno st line = Ok (st', out) /\
    colorsAtRest (length patterns) st' /\
    (forall k, get (lineProperties st') k = get (lineProperties st) k) /\
    (pos <> [] ->
     last (escapesOf out)
       = Some (computeEscape rangeOrder (length patterns) lineno (length pos - 1) st') /\
     findColors (length patterns) (lineColorFG st') (lineColorBG st') = (39, 49)).
Proof.
  intros Hwf Hcol [Hfg Hbg].
  destruct pos as [|ev0 pos0].
  { exists st. unfold processLine. rewrite Hcol. unfold_bind. simpl.
    destruct lm; eexists; (split; [reflexivity|]); split; done. }
  set (pos := ev0 :: pos0) in *.
  pose proof (collect_events_in_range _ _ _ _ Hwf Hcol) as Hrange.
  rewrite <- (sort_perm pos) in Hrange.
  destruct (sweep_sorted rangeOrder (sortPositions pos) (length patterns) lineno 0%nat
              line st [] 0 "") as (out' & lo' & Hsw).
  { lia. }
  { apply sort_sorted. }
  { eapply Forall_impl; [exact Hrange|]. simpl. lia. }
  destruct (sweep_text rangeOrder (sortPositions pos) (length patterns) lineno 0%nat
              line st [] 0 "") as (st1 & out1 & lo1 & prev1 & Hsw1 & Hlo1 & _).
  { lia. }
  { eapply Forall_impl; [exact Hrange|]. simpl. lia. }
  rewrite Hsw in Hsw1. injection Hsw1 as <- <- <- <-.
  assert (memoryInv [] "") as Hmem0.
  { split; [done|]. split; [apply Forall_nil_2|by right]. }
  pose proof (sweep_memory rangeOrder _ _ _ _ _ _ _ _ _ _ _ _ _ Hmem0 Hsw)
    as (_ & Hform & Hlast).
  assert (length (sortPositions pos) = length pos) as Hlen
    by (by rewrite sort_perm).
  destruct (sortPositions pos) as [|first rest] eqn:Esort; [discriminate|].
  rewrite <- Esort in *. clear first rest Esort.
  set (st' := applyEvents st (sortPositions pos)) in *.
  assert (colorsAtRest (length patterns) st') as Hrest.
  { destruct (applyEvents_length (sortPositions pos) st) as [Hl1 Hl2].
    split; apply zero_slots.
    - fold st' in Hl1. rewrite Hl1, Hfg. apply length_replicate.
    - intros n v. apply (slots_closed lineColorFG
                           (fun ev => match Kind ev with
                                      | LinePositionStartKind =>
                                          get (PosColorize ev) ForegroundColor
                                      | LinePositionEndKind => 0
                                      end)).
      + intros s0 ev. unfold applyEvent. by destruct (Kind ev).
      + by intros ev ->.
      + eapply sorted_startsClosed; eauto.
      + rewrite Hfg. apply replicate_zero_lookup.
    - fold st' in Hl2. rewrite Hl2, Hbg. apply length_replicate.
    - intros n v. apply (slots_closed lineColorBG
                           (fun ev => match Kind ev with
                                      | LinePositionStartKind =>
                                          get (PosColorize ev) BackgroundColor
                                      | LinePositionEndKind => 0
                                      end)).
      + intros s0 ev. unfold applyEvent. by destruct (Kind ev).
      + by intros ev ->.
      + eapply sorted_startsClosed; eauto.
      + rewrite Hbg. apply replicate_zero_lookup. }
  exists st', (out' ++ [Text (drop (Z.to_nat lo') line)]).
  split; [|split; [done|split]].
  - unfold processLine. rewrite Hcol. unfold_bind. simpl length. cbn match.
    fold pos. rewrite Hsw. cbn. by rewrite slice_to_end by lia.
  - intros k. unfold st'. rewrite applyEvents_get.
    rewrite (netCount_perm k _ _ (sort_perm pos)).
    pose proof (collect_spec _ _ _ _ Hcol) as [-> _].
    rewrite netCount_captures. lia.
  - intros _. split.
    + rewrite escapesOf_app. simpl. rewrite app_nil_r.
      destruct Hlast as [Hlast|[_ Hempty]].
      * rewrite Hlast. rewrite Hlen. simpl. done.
      * exfalso.
        pose proof (computeEscape_isSGR rangeOrder (length patterns) lineno
                      (0 + length (sortPositions pos) - 1) st') as Hsgr.
        rewrite Hempty in Hsgr. discriminate.
    + destruct Hrest as [-> ->]. apply findColors_rest.
Qed.

End RestFacts.

(** X5 on the line [an ERROR occurred] with the rule
    [/(?P<x>ERROR)/x:fg red bold]. *)
Lemma line_leaves_no_colour_witness :
  exists st' out,
    processLine insertionSort rangeInOrder [Examples.rule "ERROR" "fg red bold"] 0
      (initialState [Examples.rule "ERROR" "fg red bold"])
      (Examples.B "an ERROR occurred") = Ok (st', out) /\
    colorsAtRest 1 st' /\
    (forall k, get (lineProperties st') k
               = get (lineProperties (initialState [Examples.rule "ERROR" "fg red bold"])) k) /\
    last (escapesOf out) = Some (computeEscape rangeInOrder 1 0 1 st').
Proof.
  destruct (line_leaves_no_colour insertionSort rangeInOrder insertionSort_perm
              insertionSort_sorted [Examples.rule "ERROR" "fg red bold"] 0
              (initialState [Examples.rule "ERROR" "fg red bold"])
              (Examples.B "an ERROR occurred") true
              [mkLinePosition LinePositionStartKind 0 3 (Examples.colorize "fg red bold");
               mkLinePosition LinePositionEndKind 0 8 (Examples.colorize "fg red bold")])
    as (st' & out & Hok & Hrest & Hget & Hlast).
  - vm_compute; reflexivity.
  - vm_compute; reflexivity.
  - split; reflexivity.
  - exists st', out. split; [exact Hok|]. split; [exact Hrest|]. split; [exact Hget|].
    apply Hlast. discriminate.
Defined.

(** ** The whole stream *)

Lemma IndexByte_lt (l : bytes) c i : IndexByte l c = Some i -> (i < length l)%nat.
Proof.
  revert i. induction l as [|x l IH]; intros i; simpl; [done|].
  destruct (Ascii.eqb x c); [intros [= <-]; lia|].
  destruct (IndexByte l c) as [j|]; [|done].
  intros [= <-]. specialize (IH j eq_refl). lia.
Qed.

Lemma deliveredLoop_concat fuel :
  forall reader,
    (length (unread reader) < fuel)%nat ->
    (0 < bufSize reader)%nat ->
    srcFailure reader = None ->
    concat (deliveredLoop fuel reader) = unread reader /\
    Forall (fun piece => (length piece <= bufSize reader)%nat) (deliveredLoop fuel reader).
Proof.
  induction fuel as [|fuel IH]; intros [bsize rest fail] Hlen Hb Hfail; [simpl in *; lia|].
  cbn [unread bufSize srcFailure] in *. subst fail.
  cbn [deliveredLoop]. unfold ReadSlice. cbn [unread bufSize srcFailure].
  destruct (IndexByte (take bsize rest) newline) as [i|] eqn:Ei.
  - apply IndexByte_lt in Ei. rewrite length_take in Ei.
    cbn [clearBufferFull].
    destruct (IH (mkReader bsize (drop (S i) rest) None)) as [Hc Hf];
      cbn [unread bufSize srcFailure] in *; [|done..|].
    { rewrite length_drop. lia. }
    rewrite concat_cons, Hc, take_drop. split; [done|].
    constructor; [rewrite length_take; lia|done].
  - destruct (Nat.leb_spec bsize (length rest)).
    + cbn [clearBufferFull].
      destruct (IH (mkReader bsize (drop bsize rest) None)) as [Hc Hf];
        cbn [unread bufSize srcFailure] in *; [|done..|].
      { rewrite length_drop. lia. }
      rewrite concat_cons, Hc, take_drop. split; [done|].
      constructor; [rewrite length_take; lia|done].
    + cbn [clearBufferFull endError]. cbn [concat]. rewrite app_nil_r.
      split; [done|]. constructor; [lia|constructor].
Qed.

(** X6.  When the input ends without a read failure, the pieces handed
    to the match collection are, joined in order, the whole input, and
    no piece is longer than the read buffer. *)
Theorem reader_delivers_everything (bufferSize : Z) (rd : Source) :
  failure rd = None ->
  concat (delivered bufferSize rd) = data rd /\
  Forall (fun piece => (length piece <= Z.to_nat (Z.max bufferSize 16))%nat)
         (delivered bufferSize rd).
Proof.
  intros Hfail. unfold delivered.
  apply (deliveredLoop_concat _ (NewReaderSize rd bufferSize)); simpl; [lia|lia|done].
Qed.

Lemma reader_delivers_everything_witness :
  concat (delivered 16 (Examples.source (Examples.linesOf ["0123456789abcERROR"; "ok"])))
    = Examples.B (Examples.linesOf ["0123456789abcERROR"; "ok"]) /\
  Forall (fun piece => (length piece <= Z.to_nat (Z.max 16 16))%nat)
    (delivered 16 (Examples.source (Examples.linesOf ["0123456789abcERROR"; "ok"]))).
Proof.
  apply (reader_delivers_everything 16
           (Examples.source (Examples.linesOf ["0123456789abcERROR"; "ok"]))).
  reflexivity.
Defined.

Lemma matchesLine_false patterns (line : bytes) :
  matchesLine patterns line = false -> Forall (fun p => RE p line = []) patterns.
Proof.
  unfold matchesLine. induction patterns as [|p rest IH]; simpl; [constructor|].
  intros H. apply orb_false_iff in H as [Hp Hrest].
  constructor; [|by apply IH].
  apply negb_false_iff, bool_decide_eq_true in Hp. done.
Qed.

Section StreamFacts.

Variable sortPositions : LinePositions -> LinePositions.
Variable rangeOrder : nat -> nat -> list nat.
Hypothesis sort_perm : forall l, sortPositions l ≡ₚ l.

(** One line: its text is written when some pattern matches it, and
    nothing otherwise. *)
Lemma processLine_text patterns lineno st (line : bytes) :
  wellFormed patterns line = true ->
  exists st' out,
    processLine sortPositions rangeOrder patterns lineno st line = Ok (st', out) /\
    textOf out = if matchesLine patterns line then line else [].
Proof.
  intros Hwf.
  destruct (collect_total _ _ Hwf) as (lm & pos & Hcol).
  pose proof (collect_spec _ _ _ _ Hcol) as [_ Hlm]. fold (matchesLine patterns line) in Hlm.
  destruct pos as [|ev0 pos0].
  - unfold processLine. rewrite Hcol. unfold_bind. simpl. rewrite <- Hlm.
    destruct lm; eexists _, _; (split; [reflexivity|]); simpl; by rewrite ?app_nil_r.
  - destruct (processLine_colorized sortPositions rangeOrder sort_perm patterns lineno st
                line lm (ev0 :: pos0) Hwf Hcol ltac:(discriminate))
      as (st' & out & _ & _ & _ & Hok & Htext & _).
    exists st', out. split; [done|].
    destruct (matchesLine patterns line) eqn:Em; [done|].
    apply matchesLine_false in Em.
    unfold collect in Hcol. rewrite collectPatterns_no_match in Hcol by done.
    discriminate.
Qed.

Lemma processLoop_text fuel :
  forall patterns reader lineno st sink,
    Forall (fun line => wellFormed patterns line = true) (deliveredLoop fuel reader) ->
    (length (unread reader) < fuel)%nat ->
    (0 < bufSize reader)%nat ->
    exists e out,
      processLoop sortPositions rangeOrder fuel patterns reader lineno st sink
        = Ok (e, sink ++ out) /\
      textOf out = matchedText patterns (deliveredLoop fuel reader).
Proof.
  induction fuel as [|fuel IH]; intros patterns reader lineno st sink Hwf Hlen Hb; [lia|].
  cbn [processLoop deliveredLoop] in *.
  destruct (ReadSlice reader newline) as [[line readerErr] reader'] eqn:Eread.
  pose proof (ReadSlice_progress _ _ _ _ Hb Eread) as Hprog.
  destruct (clearBufferFull readerErr) as [[| |msg]|].
  - apply Forall_cons in Hwf as [Hline _].
    destruct (processLine_text patterns lineno st line Hline) as (st' & out & -> & Htext).
    unfold_bind. exists None, out. split; [done|].
    unfold matchedText. simpl. by rewrite app_nil_r.
  - apply Forall_cons in Hwf as [Hline _].
    destruct (processLine_text patterns lineno st line Hline) as (st' & out & -> & Htext).
    unfold_bind. exists None, out. split; [done|].
    unfold matchedText. simpl. by rewrite app_nil_r.
  - exists (Some (ErrIO msg)), []. by rewrite app_nil_r.
  - apply Forall_cons in Hwf as [Hline Hrest].
    destruct (processLine_text patterns lineno st line Hline) as (st' & out & -> & Htext).
    unfold_bind. destruct (Hprog eq_refl) as [Hl' Hb'].
    destruct (IH patterns reader' (S lineno) st' (sink ++ out) Hrest) as (e & out2 & -> & Htext2);
      [lia..|].
    exists e, (out ++ out2). split; [by rewrite app_assoc|].
    rewrite textOf_app, Htext, Htext2. unfold matchedText. done.
Qed.

(** X7.  On well-formed matches [processFile] returns without a panic,
    and the bytes it writes are, escapes left out, the pieces of the
    input that some pattern matches, in order; the other pieces are
    dropped. *)
Theorem output_is_matched_lines bufferSize patterns (rd : Source) :
  Forall (fun line => wellFormed patterns line = true) (delivered bufferSize rd) ->
  exists e out,
    processFile sortPositions rangeOrder bufferSize patterns rd = Ok (e, out) /\
    textOf out = matchedText patterns (delivered bufferSize rd).
Proof.
  intros Hwf. unfold processFile, delivered in *.
  destruct (processLoop_text _ patterns (NewReaderSize rd bufferSize) 0%nat
              (initialState patterns) [] Hwf) as (e & out & Hok & Htext); simpl; [lia..|].
  eauto.
Qed.

End StreamFacts.

Lemma output_is_matched_lines_witness :
  exists e out,
    processFile insertionSort rangeInOrder 4096 [Examples.rule "ERROR" "fg red"]
      (Examples.source (Examples.linesOf ["an ERROR"; "fine"; "ERROR again"])) = Ok (e, out) /\
    textOf out = matchedText [Examples.rule "ERROR" "fg red"]
      (delivered 4096 (Examples.source (Examples.linesOf ["an ERROR"; "fine"; "ERROR again"]))).
Proof.
  apply (output_is_matched_lines insertionSort rangeInOrder insertionSort_perm 4096
           [Examples.rule "ERROR" "fg red"]).
  vm_compute. repeat constructor.
Defined.

(** ** The rules *)

Import Rules.

Lemma lastIndexFrom_absent (s : string) (c : ascii) (i found : Z) :
  c ∉ list_ascii_of_string s -> lastIndexFrom s c i found = found.
Proof.
  revert i found. induction s as [|a s IH]; intros i found Hc; simpl; [done|].
  simpl in Hc. apply not_elem_of_cons in Hc as [Hne Hc].
  rewrite IH by done.
  destruct (Ascii.eqb_spec a c); [congruence|done].
Qed.

Section RuleFacts.

Variable TrimSpace ToLower : string -> string.
Variable Compile : string -> string + Regexp.

(** X8.  A rule that opens its regular expression with a slash and
    never closes it is refused as an empty regular expression: the
    opening slash is then the last one, and the test for a missing end
    does not fire. *)
Theorem parsePattern_unclosed filename num line rest :
  TrimSpace line = String "/" rest ->
  "/"%char ∉ list_ascii_of_string rest ->
  parsePattern TrimSpace ToLower Compile filename num line
    = Ok (inl (errorAt filename num "bad format: empty regular expression")).
Proof.
  intros Hline Hrest. unfold parsePattern. rewrite Hline.
  cbn [String.length Nat.eqb String.get].
  change (Ascii.eqb "/" "/") with true. cbn [negb].
  unfold LastIndexByte. cbn [lastIndexFrom].
  change (Ascii.eqb "/" "/") with true. cbv iota.
  rewrite lastIndexFrom_absent by done.
  reflexivity.
Qed.


Lemma length_eqb_nonempty (s : string) : (String.length s =? 0)%nat = false -> s <> "".
Proof. by destruct s. Qed.

Lemma attachGroups_spec subexp :
  forall i names groups,
    exists added,
      attachGroups i subexp names groups = groups ++ added /\
      StronglySorted (fun g h => (Number g < Number h)%nat) added /\
      forall g, g ∈ added <->
        (i <= Number g)%nat /\ subexp !! (Number g - i)%nat = Some (Name g) /\
        Name g <> "" /\ names !! Name g = Some (GroupColorize g).
Proof.
  induction subexp as [|name rest IH]; intros i names groups.
  - exists []. rewrite app_nil_r. split; [done|]. split; [constructor|].
    intros g. split; [by intros ?%elem_of_nil|]. by intros (_ & ? & _).
  - cbn [attachGroups].
    assert (Hshift : forall g, (S i <= Number g)%nat ->
              (name :: rest) !! (Number g - i)%nat = rest !! (Number g - S i)%nat).
    { intros g Hg. replace (Number g - i)%nat with (S (Number g - S i)) by lia. done. }
    assert (Hhead : forall g, (i <= Number g)%nat -> ~ (S i <= Number g)%nat ->
              (name :: rest) !! (Number g - i)%nat = Some name).
    { intros g H1 H2. replace (Number g - i)%nat with 0%nat by lia. done. }
    destruct (String.length name =? 0)%nat eqn:Elen;
      [|destruct (names !! name) as [data|] eqn:Elook].
    + destruct (IH (S i) names groups) as (added & -> & Hsorted & Hmem).
      exists added. split; [done|]. split; [done|].
      intros g. rewrite Hmem. split.
      * intros (Hi & Hl & Hn & Hc). rewrite Hshift by lia. split; [lia|done].
      * intros (Hi & Hl & Hn & Hc).
        destruct (decide (S i <= Number g)%nat) as [Hs|Hs].
        { rewrite Hshift in Hl by lia. done. }
        rewrite Hhead in Hl by lia. injection Hl as Hname.
        apply Nat.eqb_eq in Elen. rewrite <- Hname in Hn. by destruct name.
    + destruct (IH (S i) names (groups ++ [mkGroup name i data]))
        as (added & -> & Hsorted & Hmem).
      exists (mkGroup name i data :: added). split; [by rewrite <- app_assoc|].
      split.
      { constructor; [done|]. apply Forall_forall. intros g Hg.
        apply Hmem in Hg as (Hi & _). simpl. lia. }
      intros g. rewrite elem_of_cons, Hmem. split.
      * intros [->|(Hi & Hl & Hn & Hc)].
        { simpl. rewrite Nat.sub_diag. split; [lia|]. split; [done|].
          split; [by apply length_eqb_nonempty|done]. }
        rewrite Hshift by lia. split; [lia|done].
      * intros (Hi & Hl & Hn & Hc).
        destruct (decide (S i <= Number g)%nat) as [Hs|Hs].
        { right. rewrite Hshift in Hl by lia. done. }
        left. rewrite Hhead in Hl by lia. injection Hl as Hname.
        destruct g as [gname gnum gcol]. simpl in *. subst gname.
        rewrite Elook in Hc. injection Hc as <-. f_equal. lia.
    + destruct (IH (S i) names groups) as (added & -> & Hsorted & Hmem).
      exists added. split; [done|]. split; [done|].
      intros g. rewrite Hmem. split.
      * intros (Hi & Hl & Hn & Hc). rewrite Hshift by lia. split; [lia|done].
      * intros (Hi & Hl & Hn & Hc).
        destruct (decide (S i <= Number g)%nat) as [Hs|Hs].
        { rewrite Hshift in Hl by lia. done. }
        rewrite Hhead in Hl by lia. injection Hl as Hname. congruence.
Qed.

(** What a successful [parsePattern] went through. *)
Lemma parsePattern_Ok filename num line p :
  parsePattern TrimSpace ToLower Compile filename num line = Ok (inr p) ->
  exists re names,
    Compile (substr (TrimSpace line) 1 (LastIndexByte (TrimSpace line) "/")) = inr re /\
    parseNames TrimSpace ToLower filename num 0
      (StringsSplit (substrFrom (TrimSpace line) (LastIndexByte (TrimSpace line) "/" + 1)) ",")
      ∅ = Ok (inr names) /\
    p = mkPattern (FindAllSubmatchIndex re) (attachGroups 0 (SubexpNames re) names []).
Proof.
  unfold parsePattern.
  destruct (String.length (TrimSpace line) =? 0)%nat; [done|].
  destruct (String.get 0 (TrimSpace line)) as [a|]; [|done].
  destruct (negb (Ascii.eqb a "/")); [done|].
  destruct (LastIndexByte (TrimSpace line) "/" =? -1); [done|].
  destruct (LastIndexByte (TrimSpace line) "/" <=? 1); [done|].
  destruct (Compile _) as [err|re] eqn:Ecomp; [done|].
  destruct (parseNames _ _ _ _ _ _ _) as [[err|names]| |] eqn:Enames; unfold_bind;
    try done.
  intros [= <-]. eauto.
Qed.

(** X9.  The colourised groups of a parsed rule are exactly the named
    groups of the compiled expression to which the rule gives a colour,
    each once and in the order of their numbers; a colour given to a
    name that the expression does not have is left out. *)
Theorem parsePattern_groups filename num line p :
  parsePattern TrimSpace ToLower Compile filename num line = Ok (inr p) ->
  exists re names,
    Compile (substr (TrimSpace line) 1 (LastIndexByte (TrimSpace line) "/")) = inr re /\
    parseNames TrimSpace ToLower filename num 0
      (StringsSplit (substrFrom (TrimSpace line) (LastIndexByte (TrimSpace line) "/" + 1)) ",")
      ∅ = Ok (inr names) /\
    RE p = FindAllSubmatchIndex re /\
    StronglySorted (fun g h => (Number g < Number h)%nat) (Groups p) /\
    forall g, g ∈ Groups p <->
      SubexpNames re !! Number g = Some (Name g) /\ Name g <> "" /\
      names !! Name g = Some (GroupColorize g).
Proof.
  intros Hok. destruct (parsePattern_Ok _ _ _ _ Hok) as (re & names & Hc & Hn & ->).
  exists re, names. split; [done|]. split; [done|]. split; [done|].
  destruct (attachGroups_spec (SubexpNames re) 0 names []) as (added & Heq & Hsorted & Hmem).
  cbn [Groups]. rewrite Heq, app_nil_l. split; [done|].
  intros g. rewrite Hmem, Nat.sub_0_r. split; [by intros (_ & ?)|].
  intros ?. split; [lia|done].
Qed.

Lemma wfCapture_contract re (line : bytes) m g :
  regexpContract re -> m ∈ FindAllSubmatchIndex re line ->
  (Number g < length (SubexpNames re))%nat ->
  wfCapture line g m = true.
Proof.
  intros Hcontract Hm Hnum.
  destruct (Hcontract line m Hm) as [Hlen Hpairs]. unfold wfCapture.
  destruct (lookup_lt_is_Some_2 m (Number g * 2)) as [s Hs]; [lia|].
  destruct (lookup_lt_is_Some_2 m (Number g * 2 + 1)) as [e He]; [lia|].
  rewrite Hs, He.
  destruct (Hpairs _ _ _ Hs He) as [[-> ->]|(H1 & H2 & H3)]; [done|].
  destruct (Z.eqb_spec s e); [done|].
  cbn [orb]. apply andb_true_iff. split; [apply andb_true_iff; split|]; lia.
Qed.

Lemma parsePattern_wellFormed filename num text p :
  (forall src re, Compile src = inr re -> regexpContract re) ->
  parsePattern TrimSpace ToLower Compile filename num text = Ok (inr p) ->
  forall line : bytes,
    forallb (fun g => forallb (wfCapture line g) (RE p line)) (Groups p) = true.
Proof.
  intros Hcontract Hok line.
  destruct (parsePattern_Ok _ _ _ _ Hok) as (re & names & Hc & Hn & ->).
  destruct (attachGroups_spec (SubexpNames re) 0 names []) as (added & Heq & _ & Hmem).
  cbn [Groups RE]. rewrite Heq, app_nil_l.
  apply forallb_forall. intros g Hg%list_elem_of_In.
  apply Hmem in Hg as (_ & Hl & _). rewrite Nat.sub_0_r in Hl.
  apply lookup_lt_Some in Hl.
  apply forallb_forall. intros m Hm%list_elem_of_In.
  eapply wfCapture_contract; eauto.
Qed.

(** What holds of the patterns at the start and of every parsed
    pattern holds of the patterns returned. *)
Lemma readRules_Forall (P : Pattern -> Prop) filename :
  (forall num text p,
     parsePattern TrimSpace ToLower Compile filename num text = Ok (inr p) -> P p) ->
  forall fuel reader n ps ps' e,
    Forall P ps ->
    readRules TrimSpace ToLower Compile fuel filename reader n ps = Ok (ps', e) ->
    Forall P ps'.
Proof.
  intros HP. induction fuel as [|fuel IH]; intros reader n ps ps' e Hps; [done|].
  cbn [readRules].
  destruct (ReadString reader newline) as [[line readerErr] reader'].
  destruct readerErr as [[| |msg]|]; try (by intros [= <- <-]).
  - destruct (_ || _); [by intros [= <- <-]|].
    destruct (parsePattern _ _ _ _ _ _) as [[err|p]| |] eqn:Ep; unfold_bind; try done.
    + by intros [= <- <-].
    + intros [= <- <-]. apply Forall_app. split; [done|]. constructor; [|done]. eauto.
  - destruct (_ || _); [by apply IH|].
    destruct (parsePattern _ _ _ _ _ _) as [[err|p]| |] eqn:Ep; unfold_bind; try done.
    + by intros [= <- <-].
    + apply IH. apply Forall_app. split; [done|]. constructor; [|done]. eauto.
Qed.

(** X10.  When the compiled expressions keep the contract of package
    [regexp], the rules read from a file index every match inside its
    bounds: collecting the matches of a line never panics. *)
Theorem rules_are_well_formed filename rd patterns e :
  (forall src re, Compile src = inr re -> regexpContract re) ->
  readPatternsFromFile TrimSpace ToLower Compile filename rd = Ok (patterns, e) ->
  forall line : bytes,
    wellFormed patterns line = true /\
    exists lineMatches positions, collect patterns line = Ok (lineMatches, positions).
Proof.
  intros Hcontract Hread line.
  assert (Hwf : wellFormed patterns line = true).
  { unfold wellFormed. apply forallb_forall. intros p Hp%list_elem_of_In.
    revert p Hp. apply Forall_forall.
    eapply (readRules_Forall
              (fun p => forallb (fun g => forallb (wfCapture line g) (RE p line)) (Groups p)
                        = true)); [|constructor|exact Hread].
    intros num text p Hok. by eapply parsePattern_wellFormed. }
  split; [done|]. by apply collect_total.
Qed.

(** X12.  An entry of the colour list that has not exactly one colon
    is reported with its position among all the entries between commas,
    the empty ones counted, when the entries before it are accepted. *)
Theorem parseNames_bad_entry filename num pre bad post :
  Forall (goodEntry ToLower) pre ->
  bad <> "" ->
  length (StringsSplit bad ":") <> 2%nat ->
  forall i names,
    parseNames TrimSpace ToLower filename num i (pre ++ bad :: post) names
    = Ok (inl (errorAt filename num
                 ("bad format: can not parse group "
                  +:+ Sprintf_d (Z.of_nat (i + length pre))))).
Proof.
  intros Hpre Hbad Hsplit. induction Hpre as [|s pre Hs _ IH]; intros i names.
  - cbn [app parseNames length]. rewrite Nat.add_0_r.
    destruct bad as [|a bad']; [done|]. cbn [String.length Nat.eqb].
    by destruct (StringsSplit (String a bad') ":") as [|x [|y [|z l]]].
  - cbn [app parseNames length].
    replace (i + S (length pre))%nat with (S i + length pre)%nat by lia.
    destruct (String.length s =? 0)%nat eqn:Elen; [apply IH|].
    destruct Hs as [->|(name & spec & c & -> & ->)]; [done|].
    unfold_bind. apply IH.
Qed.

(** *** Rule files joined *)

Lemma IndexByte_elem (l : bytes) c : c ∈ l -> exists i, IndexByte l c = Some i.
Proof.
  induction l as [|x l IH]; [by intros ?%elem_of_nil|].
  intros Hc. simpl. destruct (Ascii.eqb_spec x c); [eauto|].
  apply elem_of_cons in Hc as [->|Hc]; [done|].
  destruct (IH Hc) as [i ->]. simpl. eauto.
Qed.

Lemma IndexByte_app (l rest : bytes) c i :
  IndexByte l c = Some i -> IndexByte (l ++ rest) c = Some i.
Proof.
  revert i. induction l as [|x l IH]; intros i; simpl; [done|].
  destruct (Ascii.eqb x c); [done|].
  destruct (IndexByte l c) as [j|]; [|done].
  by rewrite (IH j eq_refl).
Qed.

Lemma countByte_drop (l : bytes) c i :
  IndexByte l c = Some i -> countByte c l = S (countByte c (drop (S i) l)).
Proof.
  revert i. induction l as [|x l IH]; intros i; simpl; [done|].
  unfold countByte in *. rewrite filter_cons.
  destruct (Ascii.eqb_spec x c) as [->|Hne].
  - intros [= <-]. rewrite decide_True by done. by rewrite drop_0.
  - destruct (IndexByte l c) as [j|]; [|done]. intros [= <-].
    rewrite decide_False by done. by rewrite (IH j eq_refl).
Qed.

Lemma wholeLines_drop (l : bytes) n : wholeLines l -> wholeLines (drop n l).
Proof.
  intros [->|Hlast]; [left; by rewrite drop_nil|].
  destruct (drop n l) as [|x rest] eqn:Ed; [by left|]. right.
  rewrite <- (take_drop n l), last_app, Ed in Hlast. rewrite <- Hlast.
  by destruct (last (x :: rest)) eqn:El; [|apply last_None in El].
Qed.

Lemma wholeLines_IndexByte (l : bytes) :
  wholeLines l -> l <> [] -> exists i, IndexByte l newline = Some i.
Proof.
  intros [->|Hlast] Hne; [done|]. by apply IndexByte_elem, last_Some_elem_of.
Qed.

(** Fuel above the length of the input is never used up: with two such
    amounts the loop gives the same result. *)
Lemma readRules_fuel filename fuel :
  forall fuel' reader n ps,
    (length (unread reader) < fuel)%nat -> (length (unread reader) < fuel')%nat ->
    readRules TrimSpace ToLower Compile fuel filename reader n ps
    = readRules TrimSpace ToLower Compile fuel' filename reader n ps.
Proof.
  induction fuel as [|fuel IH]; intros fuel' [bs rest fl] n ps H1 H2; [lia|].
  destruct fuel' as [|fuel']; [lia|]. cbn [unread] in *.
  cbn [readRules]. unfold ReadString. cbn [unread bufSize srcFailure].
  destruct (IndexByte rest newline) as [i|] eqn:Ei.
  - apply IndexByte_lt in Ei.
    assert (Hd : (length (drop (S i) rest) < length rest)%nat) by (rewrite length_drop; lia).
    destruct (_ || _); [apply IH; cbn [unread]; lia|].
    destruct (parsePattern _ _ _ _ _ _) as [[err|p]| |]; unfold_bind; try done.
    apply IH; cbn [unread]; lia.
  - destruct (endError fl); done.
Qed.

Hypothesis TrimSpace_empty : TrimSpace "" = "".

Lemma readRules_app filename k :
  forall (a b : bytes) fl bs n ps fuelA fuelB fuelAB,
    (length a <= k)%nat -> wholeLines a ->
    (length a < fuelA)%nat -> (length b < fuelB)%nat ->
    (length (a ++ b) < fuelAB)%nat ->
    readRules TrimSpace ToLower Compile fuelAB filename (mkReader bs (a ++ b) fl) n ps
    = (r ← readRules TrimSpace ToLower Compile fuelA filename (mkReader bs a None) n ps;
       match r.2 with
       | Some _ => Ok r
       | None => readRules TrimSpace ToLower Compile fuelB filename
                   (mkReader bs b fl) (n + Z.of_nat (countByte newline a)) r.1
       end).
Proof.
  induction k as [|k IH]; intros a b fl bs n ps fuelA fuelB fuelAB Hk Hwhole HA HB HAB.
  - destruct a; [|simpl in Hk; lia]. destruct fuelA as [|fuelA]; [simpl in HA; lia|].
    cbn [readRules]. unfold ReadString. cbn [unread bufSize srcFailure IndexByte endError].
    change (string_of_list_ascii []) with "". rewrite TrimSpace_empty.
    cbn [String.length Nat.eqb orb]. unfold_bind. cbn [fst snd].
    rewrite app_nil_l, Z.add_0_r.
    apply readRules_fuel; cbn [unread]; simpl in *; lia.
  - destruct (decide (a = [])) as [->|Hne].
    { apply (IH [] b fl bs n ps fuelA fuelB fuelAB); [simpl; lia|done..]. }
    destruct (wholeLines_IndexByte a Hwhole Hne) as [i Ei].
    pose proof (IndexByte_lt _ _ _ Ei) as Hi.
    destruct fuelA as [|fuelA]; [lia|]. destruct fuelAB as [|fuelAB]; [lia|].
    cbn [readRules]. unfold ReadString. cbn [unread bufSize srcFailure].
    rewrite (IndexByte_app a b newline i Ei), Ei.
    rewrite take_app_le, drop_app_le by lia.
    rewrite length_app in HAB.
    assert (Hd : length (drop (S i) a) = (length a - S i)%nat) by apply length_drop.
    assert (Hcount : n + 1 + Z.of_nat (countByte newline (drop (S i) a))
                     = n + Z.of_nat (countByte newline a)).
    { rewrite (countByte_drop a newline i Ei). lia. }
    destruct (_ || _).
    + rewrite (IH (drop (S i) a) b fl bs (n + 1) ps fuelA fuelB fuelAB);
        [|lia|by apply wholeLines_drop|lia|lia|rewrite length_app; lia].
      by rewrite Hcount.
    + destruct (parsePattern _ _ _ _ _ _) as [[err|p]| |]; unfold_bind; try done.
      rewrite (IH (drop (S i) a) b fl bs (n + 1) (ps ++ [p]) fuelA fuelB fuelAB);
        [|lia|by apply wholeLines_drop|lia|lia|rewrite length_app; lia].
      unfold_bind. by rewrite Hcount.
Qed.

(** X11.  Reading whole rule lines followed by more input gives what
    reading the first part gives when that ends in an error; otherwise
    it goes on with the second part from the rules of the first, the
    line count moved on by the number of lines of the first part. *)
Theorem rule_files_join filename (a b : bytes) fl :
  wholeLines a ->
  readPatternsFromFile TrimSpace ToLower Compile filename (mkSource (a ++ b) fl)
  = (r ← readPatternsFromFile TrimSpace ToLower Compile filename (mkSource a None);
     match r.2 with
     | Some _ => Ok r
     | None => readRules TrimSpace ToLower Compile (S (length b)) filename
                 (NewReader (mkSource b fl)) (Z.of_nat (countByte newline a)) r.1
     end).
Proof.
  intros Hwhole. unfold readPatternsFromFile, NewReader, NewReaderSize. cbn [data failure].
  rewrite (readRules_app filename (length a) a b fl _ 0 [] (S (length a)) (S (length b))
             (S (length (a ++ b)))); [done|lia|done|lia|lia|lia].
Qed.

End RuleFacts.

(** X8 on the rule [/ERROR x:fg red]. *)
Lemma parsePattern_unclosed_witness :
  parsePattern asciiTrimSpace asciiToLower Examples.exampleCompile "rules" 3
    " /ERROR x:fg red "
  = Ok (inl (errorAt "rules" 3 "bad format: empty regular expression")).
Proof.
  apply (parsePattern_unclosed asciiTrimSpace asciiToLower Examples.exampleCompile
           "rules" 3 " /ERROR x:fg red " "ERROR x:fg red").
  - reflexivity.
  - apply (bool_decide_unpack _). vm_compute. reflexivity.
Defined.

(** X9 on the rule [/(?P<x>ERROR)/y:bold,x:fg red]: the entry for [y]
    is left out. *)
Lemma parsePattern_groups_witness :
  exists re names,
    Examples.exampleCompile
      (substr (asciiTrimSpace "/(?P<x>ERROR)/y:bold,x:fg red")
         1 (LastIndexByte (asciiTrimSpace "/(?P<x>ERROR)/y:bold,x:fg red") "/")) = inr re /\
    parseNames asciiTrimSpace asciiToLower "rules" 1 0
      (StringsSplit
         (substrFrom (asciiTrimSpace "/(?P<x>ERROR)/y:bold,x:fg red")
            (LastIndexByte (asciiTrimSpace "/(?P<x>ERROR)/y:bold,x:fg red") "/" + 1)) ",")
      ∅ = Ok (inr names) /\
    RE (Examples.rule "ERROR" "fg red") = FindAllSubmatchIndex re /\
    StronglySorted (fun g h => (Number g < Number h)%nat)
      (Groups (Examples.rule "ERROR" "fg red")) /\
    forall g, g ∈ Groups (Examples.rule "ERROR" "fg red") <->
      SubexpNames re !! Number g = Some (Name g) /\ Name g <> "" /\
      names !! Name g = Some (GroupColorize g).
Proof.
  apply (parsePattern_groups asciiTrimSpace asciiToLower Examples.exampleCompile
           "rules" 1 "/(?P<x>ERROR)/y:bold,x:fg red" (Examples.rule "ERROR" "fg red")).
  vm_compute. reflexivity.
Defined.

Lemma hasPrefix_length (needle hay : bytes) :
  Examples.hasPrefix needle hay = true -> (length needle <= length hay)%nat.
Proof.
  revert hay. induction needle as [|a needle IH]; intros [|b hay]; simpl; try done; [lia|].
  intros [_ H]%andb_true_iff. apply IH in H. lia.
Qed.

Lemma findAll_bounds (needle : bytes) (hay : bytes) :
  forall off skip s,
    s ∈ Examples.findAll needle hay off skip ->
    off <= s /\ s + Z.of_nat (length needle) <= off + Z.of_nat (length hay).
Proof.
  induction hay as [|b hay IH]; intros off skip s; cbn [Examples.findAll];
    [by intros ?%elem_of_nil|].
  destruct skip as [|k].
  - destruct (Examples.hasPrefix needle (b :: hay)) eqn:Ep.
    + intros [->|Hs]%elem_of_cons.
      * apply hasPrefix_length in Ep. lia.
      * apply IH in Hs. cbn [length]. lia.
    + intros Hs. apply IH in Hs. cbn [length]. lia.
  - intros Hs. apply IH in Hs. cbn [length]. lia.
Qed.

Lemma exampleCompile_contract src re :
  Examples.exampleCompile src = inr re -> regexpContract re.
Proof.
  unfold Examples.exampleCompile. destruct (String.eqb src _); [|done].
  intros [= <-] line m Hm. cbn [FindAllSubmatchIndex SubexpNames] in *.
  unfold Examples.literalRE in Hm.
  apply list_elem_of_In, in_map_iff in Hm as (s & <- & Hs%list_elem_of_In).
  apply findAll_bounds in Hs. change (length (Examples.B "ERROR")) with 5%nat in Hs.
  change (Z.of_nat (String.length "ERROR")) with 5.
  split; [done|]. intros [|[|k]] s' e'; cbn; try done; intros [= <-] [= <-]; right; lia.
Qed.

(** X10 on a file of one comment and one rule. *)
Lemma rules_are_well_formed_witness :
  wellFormed [Examples.rule "ERROR" "fg red bold"] (Examples.B "an ERROR occurred") = true /\
  exists lineMatches positions,
    collect [Examples.rule "ERROR" "fg red bold"] (Examples.B "an ERROR occurred")
    = Ok (lineMatches, positions).
Proof.
  apply (rules_are_well_formed asciiTrimSpace asciiToLower Examples.exampleCompile
           "rules" (Examples.source (Examples.linesOf ["# errors"; "/(?P<x>ERROR)/x:fg red bold"]))
           [Examples.rule "ERROR" "fg red bold"] None).
  - exact exampleCompile_contract.
  - vm_compute. reflexivity.
Defined.

(** X12 on the list [x:red,,y,z:bold]: the entry [y] is group 2. *)
Lemma parseNames_bad_entry_witness :
  parseNames asciiTrimSpace asciiToLower "rules" 1 0 (["x:red"; ""] ++ "y" :: ["z:bold"]) ∅
  = Ok (inl (errorAt "rules" 1
               ("bad format: can not parse group " +:+ Sprintf_d (Z.of_nat (0 + 2))))).
Proof.
  apply (parseNames_bad_entry asciiTrimSpace asciiToLower "rules" 1 ["x:red"; ""] "y" ["z:bold"]).
  - constructor; [|constructor; [by left|constructor]].
    right. eexists "x", "red", _. split; vm_compute; reflexivity.
  - discriminate.
  - vm_compute. lia.
Defined.

(** X11 on a comment and a rule followed by a second rule. *)
Lemma rule_files_join_witness :
  readPatternsFromFile asciiTrimSpace asciiToLower Examples.exampleCompile "rules"
    (mkSource (Examples.B (Examples.linesOf ["# errors"; "/(?P<x>ERROR)/x:fg red"])
               ++ Examples.B "/(?P<x>ERROR)/x:bold") None)
  = (r ← readPatternsFromFile asciiTrimSpace asciiToLower Examples.exampleCompile "rules"
           (mkSource (Examples.B (Examples.linesOf ["# errors"; "/(?P<x>ERROR)/x:fg red"])) None);
     match r.2 with
     | Some _ => Ok r
     | None =>
         readRules asciiTrimSpace asciiToLower Examples.exampleCompile
           (S (length (Examples.B "/(?P<x>ERROR)/x:bold"))) "rules"
           (NewReader (mkSource (Examples.B "/(?P<x>ERROR)/x:bold") None))
           (Z.of_nat (countByte newline
              (Examples.B (Examples.linesOf ["# errors"; "/(?P<x>ERROR)/x:fg red"])))) r.1
     end).
Proof.
  apply (rule_files_join asciiTrimSpace asciiToLower Examples.exampleCompile).
  - reflexivity.
  - right. vm_compute. reflexivity.
Defined.
